(** * Grid search: State, OPEN (heapq), CLOSED (dict), Dijkstra and A*

    A shallow embedding of [src/search/algorithms.py].

    - Python's unbounded integers are [Z]; the cost fields g, h and cost hold
      Python numbers (the integer 0 of the constructor, and the sums of 1 and
      1.5 stamped by the map), modelled as exact rationals [Q].
    - Python's floats are binary64: [AStar_h_value] embeds [AStar.h_value]
      with the operations of the standard library's [SpecFloat] at
      precision 53 and exponent bound 1024, and with the OverflowError of
      the conversion of an integer that is too large.  [h_value] is the
      exact number that this computation returns while the coordinate
      differences stay below 2^51; the costs in the model of [AStar.search]
      are these exact numbers.
    - A [State] object is a record.  The search mutates a state only through
      [set_g] and [set_cost]; the objects returned by [successors] are fresh
      instances (the map creates them), so a mutation of a successor is a
      new record value, and a mutation of an entry of OPEN is an update of
      the list at its index.
    - OPEN is a Python list used through [heapq]; the functions of [heapq]
      are embedded as the library writes them, on lists with index lookup
      and update.
    - CLOSED is a Python dict keyed by [state_hash]: a [gmap Z _].
    - [self.map] is the external map collaborator: a parameter
      [successors : State -> list State].
    - [State.map_width] is a class variable: a parameter [map_width]. *)

From Stdlib Require Import ZArith QArith Qminmax Qabs Qpower Lia Lqa Sorted.
From Stdlib Require Import SpecFloat.
From stdpp Require Import base list gmap.

Close Scope Q_scope.
Open Scope nat_scope.

(** ** Python exceptions and results *)

Inductive exn : Type :=
  | NotImplementedError
  | KeyError
  | ValueError
  | OverflowError.

Inductive result (A : Type) : Type :=
  | Return (a : A)
  | Raise (e : exn).
Arguments Return {A} a.
Arguments Raise {A} e.

(** ** Comparison of Python numbers *)

Definition Qltb (a b : Q) : bool :=
  (Qnum a * Zpos (Qden b) <? Qnum b * Zpos (Qden a))%Z.

(** ** class State *)

Record State : Type := mkState {
  _x : Z;
  _y : Z;
  _g : Q;
  _h : Q;
  _cost : Q
}.

(** [State.__init__] *)
Definition State_init (x y : Z) : State :=
  {| _x := x; _y := y; _g := 0%Q; _h := 0%Q; _cost := 0%Q |}.

Definition get_x (s : State) : Z := _x s.
Definition get_y (s : State) : Z := _y s.
Definition get_g (s : State) : Q := _g s.
Definition get_h (s : State) : Q := _h s.
Definition get_cost (s : State) : Q := _cost s.

Definition set_g (s : State) (cost : Q) : State :=
  {| _x := _x s; _y := _y s; _g := cost; _h := _h s; _cost := _cost s |}.
Definition set_h (s : State) (h : Q) : State :=
  {| _x := _x s; _y := _y s; _g := _g s; _h := h; _cost := _cost s |}.
Definition set_cost (s : State) (cost : Q) : State :=
  {| _x := _x s; _y := _y s; _g := _g s; _h := _h s; _cost := cost |}.

(** [State.__lt__] *)
Definition State_lt (s other : State) : bool := Qltb (_cost s) (_cost other).

(** [State.__eq__] *)
Definition State_eq (s other : State) : bool :=
  (_x s =? _x other)%Z && (_y s =? _y other)%Z.

(** [State.state_hash], with the class variable [State.map_width] given. *)
Definition state_hash (map_width : Z) (s : State) : Z :=
  (_y s * map_width + _x s)%Z.

(** ** heapq, on a Python list of states *)

Module heapq.

(** The loop of [_siftdown]: [newitem] travels from [pos] towards
    [startpos] while it is less than the parent.  [fuel] bounds the number
    of iterations; [pos] iterations are enough. *)
Fixpoint siftdown_loop (fuel : nat) (heap : list State) (startpos : nat)
    (newitem : State) (pos : nat) : list State :=
  match fuel with
  | O => <[pos := newitem]> heap
  | S fuel' =>
      if decide (startpos < pos) then
        let parentpos := (pos - 1) / 2 in
        match heap !! parentpos with
        | Some parent =>
            if State_lt newitem parent then
              siftdown_loop fuel' (<[pos := parent]> heap) startpos newitem parentpos
            else <[pos := newitem]> heap
        | None => <[pos := newitem]> heap
        end
      else <[pos := newitem]> heap
  end.

Definition _siftdown (heap : list State) (startpos pos : nat) : list State :=
  match heap !! pos with
  | Some newitem => siftdown_loop pos heap startpos newitem pos
  | None => heap
  end.

(** The first loop of [_siftup]: the smaller child moves up until a leaf is
    reached; returns the list and the position of the hole. *)
Fixpoint siftup_loop (fuel : nat) (heap : list State) (pos : nat)
    : list State * nat :=
  match fuel with
  | O => (heap, pos)
  | S fuel' =>
      let endpos := length heap in
      let childpos := 2 * pos + 1 in
      if decide (childpos < endpos) then
        let rightpos := childpos + 1 in
        match heap !! childpos with
        | Some lc =>
            let childpos' :=
              match heap !! rightpos with
              | Some rc => if negb (State_lt lc rc) then rightpos else childpos
              | None => childpos
              end in
            match heap !! childpos' with
            | Some c => siftup_loop fuel' (<[pos := c]> heap) childpos'
            | None => (heap, pos)
            end
        | None => (heap, pos)
        end
      else (heap, pos)
  end.

Definition _siftup (heap : list State) (pos : nat) : list State :=
  match heap !! pos with
  | Some newitem =>
      let '(heap', pos') := siftup_loop (length heap) heap pos in
      _siftdown (<[pos' := newitem]> heap') pos pos'
  | None => heap
  end.

Definition heappush (heap : list State) (item : State) : list State :=
  let heap' := heap ++ [item] in
  _siftdown heap' 0 (length heap' - 1).

(** [heappop]: [None] stands for the IndexError of popping an empty list. *)
Definition heappop (heap : list State) : option (State * list State) :=
  match last heap with
  | None => None
  | Some lastelt =>
      let heap' := take (length heap - 1) heap in
      match heap' !! 0 with
      | Some returnitem => Some (returnitem, _siftup (<[0 := lastelt]> heap') 0)
      | None => Some (lastelt, heap')
      end
  end.

(** [heapify]: [for i in reversed(range(n//2)): _siftup(x, i)]. *)
Fixpoint heapify_loop (i : nat) (x : list State) : list State :=
  match i with
  | O => x
  | S i' => heapify_loop i' (_siftup x i')
  end.

Definition heapify (x : list State) : list State :=
  heapify_loop (length x / 2) x.

End heapq.

(** ** Python floats *)

(** binary64, with the operations of [SpecFloat]. *)
Module binary64.

(** The float nearest to an integer (ties to even), or an infinity. *)
Definition of_int (z : Z) : spec_float := binary_normalize 53 1024 z 0 false.

(** The literal [0.5] *)
Definition half : spec_float := S754_finite false 4503599627370496 (-53).

Definition mul : spec_float -> spec_float -> spec_float := SFmul 53 1024.
Definition add : spec_float -> spec_float -> spec_float := SFadd 53 1024.

(** The number that a float stands for; none for an infinity or a NaN. *)
Definition value (f : spec_float) : option Q :=
  match f with
  | S754_zero _ => Some 0%Q
  | S754_finite s m e =>
      Some ((if s then -1 else 1) * (inject_Z (Zpos m) * 2 ^ e))%Q
  | _ => None
  end.

End binary64.

(** The conversion of an integer operand of a float operation: Python
    raises OverflowError when the integer is too large for a float. *)
Definition float_of_int (z : Z) : result spec_float :=
  match binary64.of_int z with
  | S754_infinity _ => Raise OverflowError
  | f => Return f
  end.

(** ** class Search *)

Definition Search_search (start goal : State) : result (Q * nat) :=
  Raise NotImplementedError.

Section Search.

Variable map_width : Z.
(** [self.map.successors] *)
Variable successors : State -> list State.

Local Abbreviation hash := (state_hash map_width).

(** *** class Dijkstra *)

(** The body of [for n_prime in self.map.successors(node)], on the pair
    (OPEN, CLOSED). *)
Definition dijkstra_visit (st : list State * gmap Z Q) (n_prime : State)
    : list State * gmap Z Q :=
  let '(OPEN, CLOSED) := st in
  match CLOSED !! hash n_prime with
  | None =>
      let cost_n_prime := get_g n_prime in
      let n_prime := set_cost n_prime cost_n_prime in
      (heapq.heappush OPEN n_prime, <[hash n_prime := get_cost n_prime]> CLOSED)
  | Some recorded =>
      if Qltb (get_g n_prime) recorded then
        let cost_n_prime := get_g n_prime in
        let n_prime := set_cost n_prime cost_n_prime in
        (heapq.heapify OPEN, <[hash n_prime := get_g n_prime]> CLOSED)
      else (OPEN, CLOSED)
  end.

(** One iteration of [while self.OPEN]: either the search returns (or
    raises), or it goes on with a new (OPEN, CLOSED, node_expanded). *)
Definition dijkstra_step (goal : State) (OPEN : list State)
    (CLOSED : gmap Z Q) (node_expanded : nat)
    : result (Q * nat) + (list State * gmap Z Q * nat) :=
  match heapq.heappop OPEN with
  | None => inl (Return ((-1)%Q, 0))
  | Some (node, OPEN) =>
      let node_expanded := node_expanded + 1 in
      if State_eq node goal then
        match CLOSED !! hash node with
        | Some cost_node => inl (Return (cost_node, node_expanded))
        | None => inl (Raise KeyError)
        end
      else
        let '(OPEN, CLOSED) :=
          foldl dijkstra_visit (OPEN, CLOSED) (successors node) in
        inr (OPEN, CLOSED, node_expanded)
  end.

Fixpoint dijkstra_loop (fuel : nat) (goal : State) (OPEN : list State)
    (CLOSED : gmap Z Q) (node_expanded : nat) : option (result (Q * nat)) :=
  match fuel with
  | O => None
  | S fuel' =>
      match dijkstra_step goal OPEN CLOSED node_expanded with
      | inl r => Some r
      | inr (OPEN, CLOSED, node_expanded) =>
          dijkstra_loop fuel' goal OPEN CLOSED node_expanded
      end
  end.

(** [Dijkstra.search]; [None] when [fuel] iterations of the while loop were
    not enough. *)
Definition Dijkstra_search (fuel : nat) (start goal : State)
    : option (result (Q * nat)) :=
  let OPEN := heapq.heappush [] start in
  let CLOSED : gmap Z Q := <[hash start := get_cost start]> ∅ in
  dijkstra_loop fuel goal OPEN CLOSED 0.

(** *** class AStar *)

(** [AStar.h_value], with [self.goal] given: [max(x, y) + 0.5 * min(x, y)]
    on the integers [x] and [y], where the product converts [min(x, y)] to
    a float and the sum converts [max(x, y)]. *)
Definition AStar_h_value (goal state : State) : result spec_float :=
  let x := Z.abs (get_x state - get_x goal) in
  let y := Z.abs (get_y state - get_y goal) in
  match float_of_int (Z.min x y) with
  | Raise e => Raise e
  | Return fmin =>
      let product := binary64.mul binary64.half fmin in
      match float_of_int (Z.max x y) with
      | Raise e => Raise e
      | Return fmax => Return (binary64.add fmax product)
      end
  end.

(** The exact number [max(x, y) + 0.5 * min(x, y)] of [AStar.h_value], with
    [self.goal] given: the number that [AStar_h_value] returns while [x]
    and [y] stay below 2^51. *)
Definition h_value (goal state : State) : Q :=
  let x := Z.abs (get_x state - get_x goal) in
  let y := Z.abs (get_y state - get_y goal) in
  (inject_Z (Z.max x y) + (1 # 2) * inject_Z (Z.min x y))%Q.

(** [self.OPEN.index(n_prime)]: the first index holding an equal state. *)
Fixpoint list_index (l : list State) (s : State) : option nat :=
  match l with
  | [] => None
  | t :: l' => if State_eq t s then Some 0 else S <$> list_index l' s
  end.

(** The body of [for n_prime in self.map.successors(node)], on OPEN, with
    CLOSED fixed during the loop. *)
Definition astar_visit (goal : State) (CLOSED : gmap Z State)
    (OPEN : list State) (n_prime : State) : list State :=
  match CLOSED !! hash n_prime with
  | Some _ => OPEN
  | None =>
      match list_index OPEN n_prime with
      | Some i =>
          match OPEN !! i with
          | Some n_prime_index =>
              if Qltb (get_g n_prime) (get_g n_prime_index) then
                let n_prime_index := set_g n_prime_index (get_g n_prime) in
                let n_prime_index :=
                  set_cost n_prime_index
                    (get_g n_prime + h_value goal n_prime_index)%Q in
                heapq.heapify (<[i := n_prime_index]> OPEN)
              else OPEN
          | None => OPEN
          end
      | None =>
          let n_prime :=
            set_cost n_prime (get_g n_prime + h_value goal n_prime)%Q in
          heapq.heappush OPEN n_prime
      end
  end.

Definition astar_step (goal : State) (OPEN : list State)
    (CLOSED : gmap Z State) (node_expanded : nat)
    : result (Q * nat) + (list State * gmap Z State * nat) :=
  match heapq.heappop OPEN with
  | None => inl (Return ((-1)%Q, 0))
  | Some (node, OPEN) =>
      let node_expanded := node_expanded + 1 in
      if State_eq node goal then
        inl (Return (get_cost node, node_expanded))
      else
        let CLOSED := <[hash node := node]> CLOSED in
        let OPEN := foldl (astar_visit goal CLOSED) OPEN (successors node) in
        inr (OPEN, CLOSED, node_expanded)
  end.

Fixpoint astar_loop (fuel : nat) (goal : State) (OPEN : list State)
    (CLOSED : gmap Z State) (node_expanded : nat) : option (result (Q * nat)) :=
  match fuel with
  | O => None
  | S fuel' =>
      match astar_step goal OPEN CLOSED node_expanded with
      | inl r => Some r
      | inr (OPEN, CLOSED, node_expanded) =>
          astar_loop fuel' goal OPEN CLOSED node_expanded
      end
  end.

(** [AStar.search] *)
Definition AStar_search (fuel : nat) (start goal : State)
    : option (result (Q * nat)) :=
  let OPEN := heapq.heappush [] start in
  astar_loop fuel goal OPEN ∅ 0.

End Search.

(** ** A grid map *)

(** Modelled from the spec: the map collaborator (its class is not part of
    the search core).  A grid of [width] x [height] cells, [free] telling
    the cells without obstacle; [successors] lists the free neighbours in
    the 8 directions, each stamped with the g-value of the state plus 1.0
    for a cardinal move and 1.5 for a diagonal one. *)
Record gridded_map : Type := mkMap {
  width : Z;
  height : Z;
  free : Z -> Z -> bool
}.

Definition is_valid_pair (m : gridded_map) (x y : Z) : bool :=
  (0 <=? x)%Z && (0 <=? y)%Z && (x <? width m)%Z && (y <? height m)%Z
  && free m x y.

Definition edge_cost (i j : Z) : Q :=
  if ((i =? 0)%Z || (j =? 0)%Z) then 1%Q else (3 # 2)%Q.

Definition moves : list (Z * Z) :=
  [(-1, -1); (-1, 0); (-1, 1); (0, -1); (0, 1); (1, -1); (1, 0); (1, 1)]%Z.

Definition grid_successors (m : gridded_map) (state : State) : list State :=
  omap (fun '(i, j) =>
          let x := (get_x state + i)%Z in
          let y := (get_y state + j)%Z in
          if is_valid_pair m x y
          then Some (set_g (State_init x y) (get_g state + edge_cost i j)%Q)
          else None) moves.

(** ** Specification-side definitions *)

(** The heuristic as the specification words it, over the rationals. *)
Definition h_spec (goal s : State) : Q :=
  let dx := Qabs (inject_Z (_x s) - inject_Z (_x goal)) in
  let dy := Qabs (inject_Z (_y s) - inject_Z (_y goal)) in
  (Qmax dx dy + (1 # 2) * Qmin dx dy)%Q.

(** [f] is the binary64 number [K / 2] in its normal form: +0.0 for 0, and
    for a positive [K] below 2^53 the mantissa of 53 bits with its
    exponent. *)
Definition represents (f : spec_float) (K : Z) : Prop :=
  (K = 0%Z /\ f = S754_zero false) \/
  ((0 < K)%Z /\ exists m, f = S754_finite false m (Z.log2 K - 53) /\
     Zpos m = (K * 2 ^ (52 - Z.log2 K))%Z).

(** ** heapq: the heap invariant *)

Module heap_inv.

(** [le a b]: [b < a] does not hold, for [State.__lt__]. *)
Definition le (a b : State) : Prop := (_cost a <= _cost b)%Q.

Definition parent (i : nat) : nat := (i - 1) / 2.

(** The entry at [i] is not less than the entry at its parent. *)
Definition edge_ok (l : list State) (i : nat) : Prop :=
  forall c p, l !! i = Some c -> l !! parent i = Some p -> le p c.

(** The invariant holds on every edge whose parent index is at least [k]. *)
Definition heap_from (k : nat) (l : list State) : Prop :=
  forall i, 0 < i -> k <= parent i -> edge_ok l i.

Definition heap_ok (l : list State) : Prop := heap_from 0 l.

(** [desc s p]: position [p] lies in the subtree rooted at [s]. *)
Inductive desc (s : nat) : nat -> Prop :=
  | desc_refl : desc s s
  | desc_child p c : desc s p -> c = 2 * p + 1 \/ c = 2 * p + 2 -> desc s c.

(** The first loop of [_siftup], started at [startpos] with the hole at
    [pos]: every edge below [startpos] is in order, except the edges out
    of the hole while the hole is still at [startpos]. *)
Definition hole_ok (startpos : nat) (heap : list State) (pos : nat) : Prop :=
  forall i, 0 < i -> startpos <= parent i ->
    (pos = startpos -> parent i <> startpos) -> edge_ok heap i.

End heap_inv.

(** ** Runs of the searches and paths of the map *)

Definition pos (s : State) : Z * Z := (_x s, _y s).

(** The canonical key of a position. *)
Definition key (map_width : Z) (p : Z * Z) : Z := (p.2 * map_width + p.1)%Z.

Section Runs.

Variable map_width : Z.
Variable successors : State -> list State.

(** One move of the map: a state at [p] has a successor at [q]. *)
Definition edge (p q : Z * Z) : Prop :=
  exists s s', pos s = p /\ s' ∈ successors s /\ pos s' = q.

(** [q] can be reached from [start] by moves of the map. *)
Definition reachable (start : State) (q : Z * Z) : Prop :=
  rtc edge (pos start) q.

(** (OPEN, CLOSED, node_expanded) after [k] iterations of the while loop of
    [Dijkstra.search] that did not return. *)
Fixpoint dijkstra_iter (k : nat) (goal : State) (OPEN : list State)
    (CLOSED : gmap Z Q) (n : nat) : option (list State * gmap Z Q * nat) :=
  match k with
  | O => Some (OPEN, CLOSED, n)
  | S k' =>
      match dijkstra_step map_width successors goal OPEN CLOSED n with
      | inl _ => None
      | inr (OPEN', CLOSED', n') => dijkstra_iter k' goal OPEN' CLOSED' n'
      end
  end.

Definition Dijkstra_after (k : nat) (start goal : State)
    : option (list State * gmap Z Q * nat) :=
  dijkstra_iter k goal (heapq.heappush [] start)
    (<[state_hash map_width start := get_cost start]> ∅) 0.

(** The states popped from OPEN by the while loop of [Dijkstra.search], in
    the order of the pops. *)
Fixpoint dijkstra_popped (fuel : nat) (goal : State) (OPEN : list State)
    (CLOSED : gmap Z Q) (n : nat) : list State :=
  match fuel with
  | O => []
  | S fuel' =>
      match heapq.heappop OPEN with
      | None => []
      | Some (node, _) =>
          node ::
          match dijkstra_step map_width successors goal OPEN CLOSED n with
          | inl _ => []
          | inr (OPEN', CLOSED', n') => dijkstra_popped fuel' goal OPEN' CLOSED' n'
          end
      end
  end.

Definition Dijkstra_popped (fuel : nat) (start goal : State) : list State :=
  dijkstra_popped fuel goal (heapq.heappush [] start)
    (<[state_hash map_width start := get_cost start]> ∅) 0.

End Runs.

(** A 6 x 5 map with two obstacles, at (1,2) and (1,3). *)
Definition wall_map : gridded_map :=
  mkMap 6 5 (fun x y => negb ((x =? 1)%Z && ((y =? 2)%Z || (y =? 3)%Z))).

(** The cost of a path given by its cells, when every step is a move of the
    map [m] (to a valid neighbour cell). *)
Fixpoint path_cost (m : gridded_map) (p : Z * Z) (path : list (Z * Z))
    : option Q :=
  match path with
  | [] => Some 0%Q
  | q :: path' =>
      let i := (q.1 - p.1)%Z in
      let j := (q.2 - p.2)%Z in
      if bool_decide ((i, j) ∈ moves) && is_valid_pair m q.1 q.2 then
        match path_cost m q path' with
        | Some c => Some (edge_cost i j + c)%Q
        | None => None
        end
      else None
  end.


(** OPEN is a heap whose states have a cost of at least [lb] and at most
    their g-value. *)
Definition open_ok (lb : Q) (OPEN : list State) : Prop :=
  heap_inv.heap_ok OPEN /\
  forall e, e ∈ OPEN -> (lb <= _cost e)%Q /\ (_cost e <= _g e)%Q.


(** The positions of a finite set [P] that a search has not met yet: for
    Dijkstra the positions whose key is not in CLOSED, for A* the positions
    that are neither in OPEN nor, by their key, in CLOSED. *)
Definition unseen_dijkstra (map_width : Z) (P : gset (Z * Z))
    (CLOSED : gmap Z Q) : gset (Z * Z) :=
  filter (fun p => key map_width p ∉ dom CLOSED) P.

Definition unseen_astar (map_width : Z) (P : gset (Z * Z))
    (OPEN : list State) (CLOSED : gmap Z State) : gset (Z * Z) :=
  filter (fun p => (p ∉ pos <$> OPEN) /\ (key map_width p ∉ dom CLOSED)) P.


(** Every state of OPEN has its key recorded in Dijkstra's CLOSED. *)
Definition keys_recorded (map_width : Z) (OPEN : list State)
    (CLOSED : gmap Z Q) : Prop :=
  forall s, s ∈ OPEN -> is_Some (CLOSED !! state_hash map_width s).

(** Every state of OPEN is at a position reachable from the start. *)
Definition all_reachable (successors : State -> list State) (start : State)
    (OPEN : list State) : Prop :=
  forall s, s ∈ OPEN -> reachable successors start (pos s).

(** ** Book-keeping of the searches *)

(** Every state of OPEN has its key recorded in CLOSED with a value that is
    not above the state's own cost. *)
Definition closed_below (map_width : Z) (OPEN : list State)
    (CLOSED : gmap Z Q) : Prop :=
  forall s, s ∈ OPEN ->
    exists c, CLOSED !! state_hash map_width s = Some c /\ (c <= _cost s)%Q.

(** Dijkstra's books: no two states of OPEN share a key, the expansions so
    far and the length of OPEN add up to the size of CLOSED, and CLOSED
    lies below OPEN. *)
Definition dijkstra_books (map_width : Z) (OPEN : list State)
    (CLOSED : gmap Z Q) (n : nat) : Prop :=
  NoDup (state_hash map_width <$> OPEN) /\
  n + length OPEN = size CLOSED /\
  closed_below map_width OPEN CLOSED.

(** [CLOSED'] records every key of [CLOSED], with a value that is not
    greater. *)
Definition closed_lowered (CLOSED CLOSED' : gmap Z Q) : Prop :=
  forall k c, CLOSED !! k = Some c ->
    exists c', CLOSED' !! k = Some c' /\ (c' <= c)%Q.

(** The states that [Dijkstra.search] can hold: the start, and the
    successors of such a state with their cost set to their g-value. *)
Inductive generated (successors : State -> list State) (start : State)
    : State -> Prop :=
  | generated_start : generated successors start start
  | generated_succ s s' :
      generated successors start s -> s' ∈ successors s ->
      generated successors start (set_cost s' (get_g s')).

(** Every state of OPEN is generated, and every value of CLOSED is the cost
    of a generated state with that key. *)
Definition dijkstra_sound (map_width : Z) (successors : State -> list State)
    (start : State) (OPEN : list State) (CLOSED : gmap Z Q) : Prop :=
  (forall e, e ∈ OPEN -> generated successors start e) /\
  forall k c, CLOSED !! k = Some c ->
    exists s, generated successors start s /\
      state_hash map_width s = k /\ c = _cost s.

Section Runs_astar.

Variable map_width : Z.
Variable successors : State -> list State.

(** (OPEN, CLOSED, node_expanded) after [k] iterations of the while loop of
    [AStar.search] that did not return. *)
Fixpoint astar_iter (k : nat) (goal : State) (OPEN : list State)
    (CLOSED : gmap Z State) (n : nat)
    : option (list State * gmap Z State * nat) :=
  match k with
  | O => Some (OPEN, CLOSED, n)
  | S k' =>
      match astar_step map_width successors goal OPEN CLOSED n with
      | inl _ => None
      | inr (OPEN', CLOSED', n') => astar_iter k' goal OPEN' CLOSED' n'
      end
  end.

Definition AStar_after (k : nat) (start goal : State)
    : option (list State * gmap Z State * nat) :=
  astar_iter k goal (heapq.heappush [] start) ∅ 0.

End Runs_astar.

(** The cost of every state of OPEN is its g-value plus its estimate. *)
Definition cost_is_f (goal : State) (OPEN : list State) : Prop :=
  forall e, e ∈ OPEN -> (_cost e == _g e + h_value goal e)%Q.


(** Every state of OPEN has its column inside the map and its key not yet
    in A*'s CLOSED. *)
Definition astar_fresh (map_width : Z) (OPEN : list State)
    (CLOSED : gmap Z State) : Prop :=
  forall e, e ∈ OPEN ->
    (0 <= _x e < map_width)%Z /\ CLOSED !! state_hash map_width e = None.


(** * Properties *)

(** ** Numbers *)

Lemma Qltb_lt (a b : Q) : Qltb a b = true <-> (a < b)%Q.
Proof. unfold Qltb, Qlt. apply Z.ltb_lt. Qed.

Lemma Qltb_ge (a b : Q) : Qltb a b = false <-> (b <= a)%Q.
Proof. unfold Qltb, Qle. rewrite Z.ltb_ge. reflexivity. Qed.

(** ** State: equality and canonical key *)

Lemma State_eq_spec (s1 s2 : State) :
  State_eq s1 s2 = true <-> _x s1 = _x s2 /\ _y s1 = _y s2.
Proof.
  unfold State_eq. rewrite andb_true_iff, !Z.eqb_eq. reflexivity.
Qed.

Lemma State_eq_false (s1 s2 : State) :
  State_eq s1 s2 = false <-> _x s1 <> _x s2 \/ _y s1 <> _y s2.
Proof.
  unfold State_eq. rewrite andb_false_iff, !Z.eqb_neq. reflexivity.
Qed.

Lemma Qabs_inject_Z_sub (a b : Z) :
  (Qabs (inject_Z a - inject_Z b) == inject_Z (Z.abs (a - b)))%Q.
Proof.
  unfold Qminus. rewrite <- inject_Z_opp, <- inject_Z_plus.
  unfold Qabs, inject_Z. simpl. reflexivity.
Qed.

Lemma Qmax_inject_Z (a b : Z) :
  (Qmax (inject_Z a) (inject_Z b) == inject_Z (Z.max a b))%Q.
Proof.
  destruct (Z.le_ge_cases a b) as [H|H].
  - rewrite Z.max_r by assumption. apply Q.max_r. now rewrite <- Zle_Qle.
  - rewrite Z.max_l by assumption. apply Q.max_l. now rewrite <- Zle_Qle.
Qed.

Lemma Qmin_inject_Z (a b : Z) :
  (Qmin (inject_Z a) (inject_Z b) == inject_Z (Z.min a b))%Q.
Proof.
  destruct (Z.le_ge_cases a b) as [H|H].
  - rewrite Z.min_l by assumption. apply Q.min_l. now rewrite <- Zle_Qle.
  - rewrite Z.min_r by assumption. apply Q.min_r. now rewrite <- Zle_Qle.
Qed.

Lemma h_value_nonneg (goal s : State) : (0 <= h_value goal s)%Q.
Proof.
  unfold h_value, get_x, get_y.
  set (x := Z.abs (_x s - _x goal)). set (y := Z.abs (_y s - _y goal)).
  assert (0 <= x)%Z by apply Z.abs_nonneg.
  assert (0 <= y)%Z by apply Z.abs_nonneg.
  assert (0 <= inject_Z (Z.max x y))%Q by (rewrite <- (Zle_Qle 0); lia).
  assert (0 <= inject_Z (Z.min x y))%Q by (rewrite <- (Zle_Qle 0); lia).
  lra.
Qed.

(** [h_value] is the specified estimate max(dx,dy) + 0.5 * min(dx,dy) as an
    exact number, it is never negative, and it is zero on a state with the
    coordinates of the goal. *)
Lemma h_value_spec (goal s : State) :
  (h_value goal s == h_spec goal s)%Q /\
  (0 <= h_value goal s)%Q /\
  (_x s = _x goal -> _y s = _y goal -> (h_value goal s == 0)%Q).
Proof.
  split; [|split].
  - unfold h_value, h_spec, get_x, get_y.
    rewrite !Qabs_inject_Z_sub, Qmax_inject_Z, Qmin_inject_Z. reflexivity.
  - apply h_value_nonneg.
  - intros Hx Hy. unfold h_value, get_x, get_y. rewrite Hx, Hy, !Z.sub_diag.
    reflexivity.
Qed.

(** ** binary64: operations that need no rounding *)

Section Binary64_exact.

Local Open Scope Z_scope.

Lemma iter_pos_eq {A} (f : A -> A) p : forall x, SpecFloat.iter_pos f p x = Pos.iter f x p.
Proof.
  induction p as [p IH|p IH|]; intros x; cbn [SpecFloat.iter_pos Pos.iter].
  - rewrite !IH. rewrite <- !Pos.iter_swap. reflexivity.
  - now rewrite !IH.
  - reflexivity.
Qed.

Lemma shr_1_double (x : Z) :
  shr_1 (Build_shr_record (2 * x) false false) = Build_shr_record x false false.
Proof. destruct x as [|p|p]; reflexivity. Qed.

Lemma shr_exact p : forall x : Z,
  SpecFloat.iter_pos shr_1 p (Build_shr_record (x * 2 ^ Zpos p) false false)
  = Build_shr_record x false false.
Proof.
  induction p as [|p IH] using Pos.peano_ind; intros x; rewrite iter_pos_eq.
  - cbn [Pos.iter]. rewrite Z.pow_1_r, Z.mul_comm. apply shr_1_double.
  - specialize (IH x). rewrite iter_pos_eq in IH.
    rewrite Pos.iter_succ, <- Pos.iter_swap, Pos2Z.inj_succ, Z.pow_succ_r by lia.
    replace (x * (2 * 2 ^ Z.pos p)) with (2 * (x * 2 ^ Z.pos p)) by lia.
    rewrite shr_1_double. apply IH.
Qed.

Lemma Zdigits2_log2 (m : positive) : Zdigits2 (Zpos m) = Z.log2 (Zpos m) + 1.
Proof.
  cbn [Zdigits2]. induction m as [m IH|m IH|]; cbn [digits2_pos]; [| |reflexivity].
  - rewrite Pos2Z.inj_succ, IH.
    change (Z.pos m~1) with (2 * Z.pos m + 1). rewrite Z.log2_succ_double by lia. lia.
  - rewrite Pos2Z.inj_succ, IH.
    change (Z.pos m~0) with (2 * Z.pos m). rewrite Z.log2_double by lia. lia.
Qed.

Lemma iter_xO (m d : positive) : Zpos (Pos.iter xO m d) = Zpos m * 2 ^ Zpos d.
Proof.
  induction d as [|d IH] using Pos.peano_ind.
  - cbn [Pos.iter]. rewrite Z.pow_1_r. lia.
  - rewrite Pos.iter_succ, Pos2Z.inj_succ, Z.pow_succ_r by lia.
    rewrite Pos2Z.inj_xO, IH. lia.
Qed.

Lemma shl_align_spec (mx : positive) (ex ex' : Z) :
  ex' <= ex ->
  exists mz, shl_align mx ex ex' = (mz, ex') /\ Zpos mz = Zpos mx * 2 ^ (ex - ex').
Proof.
  intros Hle. unfold shl_align.
  destruct (ex' - ex) as [|d|d] eqn:E; [| lia |].
  - exists mx. assert (ex = ex') as -> by lia. rewrite Z.sub_diag. split; [reflexivity | lia].
  - exists (Pos.iter xO mx d). split; [reflexivity|].
    rewrite iter_xO. f_equal. f_equal. lia.
Qed.

Lemma shl_align_ge (mx : positive) (ex ex' : Z) :
  ex <= ex' -> shl_align mx ex ex' = (mx, ex).
Proof.
  intros Hle. unfold shl_align. destruct (ex' - ex) eqn:E; [reflexivity..|lia].
Qed.

Lemma shr_fexp_zero (M : positive) (E : Z) :
  Z.log2 (Zpos M) + 1 = 53 -> -1074 <= E ->
  shr_fexp 53 1024 (Zpos M) E loc_Exact
  = (Build_shr_record (Zpos M) false false, E).
Proof.
  intros Hd Hmin. unfold shr_fexp. rewrite Zdigits2_log2. unfold fexp, emin.
  replace (Z.max (Z.log2 (Z.pos M) + 1 + E - 53) (3 - 1024 - 53) - E) with 0 by lia.
  reflexivity.
Qed.

Lemma binary_round_aux_exact (s : bool) (M M' : positive) (E t : Z) :
  t = Z.log2 (Zpos M) + 1 - 53 -> 0 <= t ->
  -1074 <= E -> E + t <= 971 ->
  Zpos M = Zpos M' * 2 ^ t ->
  binary_round_aux 53 1024 s (Zpos M) E loc_Exact = S754_finite s M' (E + t).
Proof.
  intros Ht Ht0 Hmin Hmax HM.
  assert (Z.log2 (Zpos M') + 1 = 53) as Hd'.
  { rewrite HM, Z.log2_mul_pow2 in Ht by lia. lia. }
  unfold binary_round_aux.
  assert (shr_fexp 53 1024 (Zpos M) E loc_Exact
          = (Build_shr_record (Zpos M') false false, E + t)) as ->.
  { destruct t as [|p|p]; [| |lia].
    - rewrite Z.pow_0_r, Z.mul_1_r in HM. injection HM as ->.
      rewrite Z.add_0_r in *. apply shr_fexp_zero; lia.
    - unfold shr_fexp. rewrite Zdigits2_log2. unfold fexp, emin.
      replace (Z.max (Z.log2 (Z.pos M) + 1 + E - 53) (3 - 1024 - 53) - E)
        with (Zpos p) by lia.
      cbn [shr shr_record_of_loc]. rewrite HM, shr_exact. reflexivity. }
  cbn [shr_m loc_of_shr_record round_nearest_even].
  rewrite shr_fexp_zero by lia. cbn [shr_m].
  replace (E + t <=? 1024 - 53) with true; [reflexivity|].
  symmetry. apply Z.leb_le. lia.
Qed.

(** [binary_round] of a number that needs no rounding: the mantissa is
    shifted to 53 bits, left or, when the bits shifted out are 0, right. *)
Lemma binary_round_exact (s : bool) (M : positive) (E c : Z) :
  c = Z.log2 (Zpos M) + 1 + E - 53 -> -1074 <= Z.min c E -> c <= 971 ->
  (E < c -> (2 ^ (c - E) | Zpos M)) ->
  exists M', binary_round 53 1024 s M E = S754_finite s M' c /\
    Zpos M' * 2 ^ (c - Z.min c E) = Zpos M * 2 ^ (E - Z.min c E).
Proof.
  intros Hc Hmin Hmax Hdiv. unfold binary_round.
  replace (fexp 53 1024 (Z.pos (digits2_pos M) + E)) with c.
  2:{ change (Z.pos (digits2_pos M)) with (Zdigits2 (Zpos M)).
      rewrite Zdigits2_log2. unfold fexp, emin. lia. }
  destruct (Z.le_gt_cases c E) as [Hle|Hgt].
  - destruct (shl_align_spec M E c Hle) as (mz & -> & Hmz).
    exists mz. split.
    + rewrite (binary_round_aux_exact s mz mz c 0); [f_equal; lia | | lia..].
      rewrite Hmz, Z.log2_mul_pow2 by lia. lia.
    + rewrite Z.min_l by lia. rewrite Z.sub_diag, Z.pow_0_r. lia.
  - rewrite shl_align_ge by lia.
    destruct (Hdiv Hgt) as [k Hk].
    assert (0 < k) as Hk0.
    { assert (0 < 2 ^ (c - E)) by (apply Z.pow_pos_nonneg; lia). nia. }
    destruct k as [|M'|M']; [lia| |lia].
    exists M'. split.
    + rewrite (binary_round_aux_exact s M M' E (c - E));
        [f_equal; lia | lia.. | exact Hk].
    + rewrite Z.min_r by lia. rewrite Z.sub_diag, Z.pow_0_r. lia.
Qed.

Lemma represents_log2 f K : represents f K -> 0 < K -> Z.log2 K <= 52.
Proof.
  intros [[-> _]|(_ & m & _ & Hm)] HK; [lia|].
  destruct (Z.le_gt_cases (Z.log2 K) 52) as [H|H]; [assumption|].
  rewrite Z.pow_neg_r in Hm by lia. lia.
Qed.

Lemma of_int_represents (z : Z) :
  0 <= z < 2 ^ 52 -> represents (binary64.of_int z) (2 * z).
Proof.
  intros [H0 Hlt]. unfold binary64.of_int.
  destruct z as [|p|p]; [left; split; reflexivity | | lia].
  right. split; [lia|]. cbn [binary_normalize].
  assert (Z.log2 (Zpos p) < 52) as Hl by (apply Z.log2_lt_pow2; lia).
  pose proof (Z.log2_nonneg (Zpos p)) as Hl0.
  destruct (binary_round_exact false p 0 (Z.log2 (Zpos p) - 52))
    as (M' & -> & HM); [lia | lia | lia | lia |].
  rewrite Z.min_l in HM by lia. rewrite Z.sub_diag, Z.pow_0_r, Z.mul_1_r in HM.
  rewrite Z.log2_double by lia. exists M'. split; [f_equal; lia|].
  rewrite HM. replace (0 - (Z.log2 (Z.pos p) - 52)) with (Z.succ (52 - Z.succ (Z.log2 (Z.pos p)))) by lia.
  rewrite Z.pow_succ_r by lia. lia.
Qed.

Lemma half_mul_represents (f : spec_float) (z : Z) :
  0 <= z -> represents f (2 * z) ->
  represents (binary64.mul binary64.half f) z.
Proof.
  intros Hz [[HK ->]|(HK & m & -> & Hm)].
  - left. split; [lia | reflexivity].
  - right. split; [lia|]. exists m.
    rewrite Z.log2_double in * by lia.
    assert (Z.log2 z <= 51) as Hl.
    { destruct (Z.le_gt_cases (Z.log2 z) 51) as [H|H]; [assumption|].
      rewrite Z.pow_neg_r in Hm by lia. lia. }
    pose proof (Z.log2_nonneg z) as Hl0.
    assert (Zpos m = z * 2 ^ (52 - Z.log2 z)) as Hm'.
    { rewrite Hm. replace (52 - Z.log2 z) with (Z.succ (52 - Z.succ (Z.log2 z))) by lia.
      rewrite Z.pow_succ_r by lia. lia. }
    split; [|exact Hm'].
    unfold binary64.mul, binary64.half. cbn [SFmul xorb].
    rewrite (binary_round_aux_exact false _ m _ 52); [f_equal; lia | | lia | lia | lia |].
    + rewrite Pos2Z.inj_mul.
      change (Z.pos 4503599627370496) with (2 ^ 52).
      rewrite (Z.mul_comm (2 ^ 52)), Z.log2_mul_pow2 by lia.
      rewrite Hm', Z.log2_mul_pow2 by lia. lia.
    + rewrite Pos2Z.inj_mul. change (Z.pos 4503599627370496) with (2 ^ 52). lia.
Qed.

Lemma add_represents (f1 f2 : spec_float) (K1 K2 : Z) :
  represents f1 K1 -> represents f2 K2 -> K1 + K2 < 2 ^ 53 ->
  represents (binary64.add f1 f2) (K1 + K2).
Proof.
  intros [[-> ->]|(HK1 & m1 & -> & Hm1)] [[-> ->]|(HK2 & m2 & -> & Hm2)] Hlt.
  - left. split; reflexivity.
  - right. split; [lia|]. exists m2. auto.
  - right. rewrite Z.add_0_r. split; [lia|]. exists m1. auto.
  - right. split; [lia|].
    set (K := K1 + K2). set (l1 := Z.log2 K1) in *. set (l2 := Z.log2 K2) in *.
    assert (0 <= l1 <= Z.log2 K) as Hl1.
    { split; [apply Z.log2_nonneg | apply Z.log2_le_mono; lia]. }
    assert (0 <= l2 <= Z.log2 K) as Hl2.
    { split; [apply Z.log2_nonneg | apply Z.log2_le_mono; lia]. }
    assert (Z.log2 K <= 52) as Hl.
    { assert (Z.log2 K < 53); [apply Z.log2_lt_pow2; lia | lia]. }
    unfold binary64.add. cbn [SFadd]. set (ez := Z.min (l1 - 53) (l2 - 53)).
    destruct (shl_align_spec m1 (l1 - 53) ez ltac:(lia)) as (mz1 & -> & Hz1).
    destruct (shl_align_spec m2 (l2 - 53) ez ltac:(lia)) as (mz2 & -> & Hz2).
    cbn [fst cond_Zopp]. change (Z.pos mz1 + Z.pos mz2) with (Z.pos (mz1 + mz2)).
    cbn [binary_normalize].
    assert (Zpos (mz1 + mz2) = K * 2 ^ (-1 - ez)) as HM.
    { rewrite Pos2Z.inj_add, Hz1, Hz2, Hm1, Hm2, <- !Z.mul_assoc, <- !Z.pow_add_r by lia.
      replace (52 - l1 + (l1 - 53 - ez)) with (-1 - ez) by lia.
      replace (52 - l2 + (l2 - 53 - ez)) with (-1 - ez) by lia. lia. }
    destruct (binary_round_exact false (mz1 + mz2) ez (Z.log2 K - 53))
      as (M' & -> & HM').
    + rewrite HM, Z.log2_mul_pow2 by lia. lia.
    + lia.
    + lia.
    + intros _. exists (K * 2 ^ (52 - Z.log2 K)).
      rewrite HM, <- Z.mul_assoc, <- Z.pow_add_r by lia. do 2 f_equal. lia.
    + exists M'. split; [reflexivity|].
      rewrite Z.min_r, Z.sub_diag, Z.pow_0_r, Z.mul_1_r, HM in HM' by lia.
      replace (-1 - ez) with (52 - Z.log2 K + (Z.log2 K - 53 - ez)) in HM' by lia.
      rewrite Z.pow_add_r, Z.mul_assoc in HM' by lia.
      apply Z.mul_cancel_r in HM'; [exact HM'|].
      apply Z.pow_nonzero; lia.
Qed.

Lemma value_represents (f : spec_float) (K : Z) :
  represents f K ->
  exists q, binary64.value f = Some q /\ (q == inject_Z K * (1 # 2))%Q.
Proof.
  intros Hrep. pose proof (represents_log2 f K Hrep) as Hl.
  destruct Hrep as [[-> ->]|(HK & m & -> & Hm)].
  - exists 0%Q. split; [reflexivity|]. reflexivity.
  - specialize (Hl HK). pose proof (Z.log2_nonneg K) as Hl0.
    eexists. split; [reflexivity|].
    rewrite Hm, inject_Z_mult, Zpower_Qpower by lia.
    rewrite Qmult_1_l, <- Qmult_assoc. apply Qmult_comp; [reflexivity|].
    change (inject_Z 2) with 2%Q.
    rewrite <- Qpower_plus by discriminate.
    replace (52 - Z.log2 K + (Z.log2 K - 53)) with (-1) by lia. reflexivity.
Qed.

Lemma float_of_int_represents (z : Z) :
  0 <= z < 2 ^ 52 ->
  float_of_int z = Return (binary64.of_int z) /\
  represents (binary64.of_int z) (2 * z).
Proof.
  intros Hz. pose proof (of_int_represents z Hz) as Hrep.
  split; [|exact Hrep]. unfold float_of_int.
  destruct Hrep as [[_ ->]|(_ & m & -> & _)]; reflexivity.
Qed.

Lemma AStar_h_value_represents (goal s : State) :
  Z.abs (_x s - _x goal) < 2 ^ 51 -> Z.abs (_y s - _y goal) < 2 ^ 51 ->
  exists f, AStar_h_value goal s = Return f /\
    represents f (2 * Z.max (Z.abs (_x s - _x goal)) (Z.abs (_y s - _y goal))
                  + Z.min (Z.abs (_x s - _x goal)) (Z.abs (_y s - _y goal))).
Proof.
  intros Hx Hy. unfold AStar_h_value, get_x, get_y.
  set (x := Z.abs (_x s - _x goal)) in *. set (y := Z.abs (_y s - _y goal)) in *.
  assert (0 <= x) by apply Z.abs_nonneg. assert (0 <= y) by apply Z.abs_nonneg.
  assert (2 ^ 52 = 2 * 2 ^ 51) as E52 by reflexivity.
  assert (2 ^ 53 = 4 * 2 ^ 51) as E53 by reflexivity.
  destruct (float_of_int_represents (Z.min x y)) as [-> Hmin]; [lia|].
  destruct (float_of_int_represents (Z.max x y)) as [-> Hmax]; [lia|].
  eexists. split; [reflexivity|].
  apply add_represents; [exact Hmax | apply half_mul_represents; [lia | exact Hmin] | lia].
Qed.

End Binary64_exact.

(** While the coordinate differences stay below 2^51, [AStar.h_value]
    returns a float, and the float is the exact number [h_value]. *)
Lemma AStar_h_value_value (goal s : State) :
  (Z.abs (_x s - _x goal) < 2 ^ 51)%Z -> (Z.abs (_y s - _y goal) < 2 ^ 51)%Z ->
  exists f q, AStar_h_value goal s = Return f /\ binary64.value f = Some q /\
    (q == h_value goal s)%Q.
Proof.
  intros Hx Hy.
  destruct (AStar_h_value_represents goal s Hx Hy) as (f & Hf & Hrep).
  destruct (value_represents f _ Hrep) as (q & Hq & Heq).
  exists f, q. split; [exact Hf|]. split; [exact Hq|].
  rewrite Heq. unfold h_value, get_x, get_y.
  rewrite inject_Z_plus, inject_Z_mult. change (inject_Z 2) with 2%Q. lra.
Qed.




(** C5: states with the same x and y are equal and have the same canonical
    key, whatever their g, h and cost; states that differ in x or in y are
    not equal. *)
Theorem State_eq_hash (map_width : Z) (s1 s2 : State) :
  (_x s1 = _x s2 -> _y s1 = _y s2 ->
   State_eq s1 s2 = true /\ state_hash map_width s1 = state_hash map_width s2) /\
  (_x s1 <> _x s2 \/ _y s1 <> _y s2 -> State_eq s1 s2 = false).
Proof.
  split.
  - intros Hx Hy. split; [apply State_eq_spec; auto|].
    unfold state_hash. now rewrite Hx, Hy.
  - apply State_eq_false.
Qed.

Lemma State_eq_hash_witness :
  (State_eq (mkState 2 3 0 0 0) (mkState 2 3 (7 # 2) 1 (9 # 2)) = true /\
   state_hash 5 (mkState 2 3 0 0 0) = state_hash 5 (mkState 2 3 (7 # 2) 1 (9 # 2))) /\
  State_eq (mkState 2 3 0 0 0) (mkState 2 4 0 0 0) = false.
Proof.
  split.
  - apply (State_eq_hash 5 (mkState 2 3 0 0 0) (mkState 2 3 (7 # 2) 1 (9 # 2)));
      reflexivity.
  - apply (State_eq_hash 5 (mkState 2 3 0 0 0) (mkState 2 4 0 0 0)).
    right. simpl. lia.
Defined.

(** C6 (as stated, refuted): two states at distinct positions can have the
    same canonical key, here (3,0) and (0,1) on a map of width 3. *)
Lemma state_hash_collision :
  ~ (forall (map_width : Z) (s1 s2 : State),
       _x s1 <> _x s2 \/ _y s1 <> _y s2 ->
       state_hash map_width s1 <> state_hash map_width s2).
Proof.
  intros H. apply (H 3%Z (State_init 3 0) (State_init 0 1)).
  - left. simpl. lia.
  - reflexivity.
Qed.

(** C6 (amended): on states whose x lies within the columns of the map,
    0 <= x < map_width, the canonical key y * map_width + x is a perfect
    hash: distinct positions have distinct keys. *)
Theorem state_hash_perfect (map_width : Z) (s1 s2 : State) :
  (0 <= _x s1 < map_width)%Z -> (0 <= _x s2 < map_width)%Z ->
  _x s1 <> _x s2 \/ _y s1 <> _y s2 ->
  state_hash map_width s1 <> state_hash map_width s2.
Proof.
  unfold state_hash. intros H1 H2 Hne Heq.
  assert (_y s1 = _y s2) as Hy by nia.
  rewrite Hy in Heq. destruct Hne as [Hx|Hy']; [apply Hx; lia | auto].
Qed.

Lemma state_hash_perfect_witness :
  state_hash 5 (State_init 4 0) <> state_hash 5 (State_init 0 1).
Proof.
  apply state_hash_perfect; simpl; lia.
Defined.

(** C9: [search] of the base class raises NotImplementedError on every
    input and returns no (cost, expansions) pair. *)
Theorem Search_search_unsupported (start goal : State) :
  Search_search start goal = Raise NotImplementedError /\
  forall r, Search_search start goal <> Return r.
Proof. split; [reflexivity | discriminate]. Qed.

(** ** heapq: the operations permute the list *)

Module heapq_perm.
Import heapq.

Lemma parentpos_lt (pos : nat) : 0 < pos -> (pos - 1) / 2 < pos.
Proof.
  intros H. apply Nat.Div0.div_lt_upper_bound. lia.
Qed.

Lemma insert_swap_hole (heap : list State) (i j : nat) (a b : State) :
  i <> j -> i < length heap -> heap !! j = Some b ->
  <[j := a]> (<[i := b]> heap) ≡ₚ <[i := a]> heap.
Proof.
  intros Hij Hi Hj.
  rewrite <- (list_insert_insert_eq heap i b a).
  apply Permutation_insert_swap.
  - apply list_lookup_insert_eq. assumption.
  - rewrite list_lookup_insert_ne by assumption. assumption.
Qed.

Lemma siftdown_loop_length fuel : forall heap startpos newitem pos,
  length (siftdown_loop fuel heap startpos newitem pos) = length heap.
Proof.
  induction fuel as [|fuel IH]; intros heap startpos newitem pos; cbn [siftdown_loop].
  - apply length_insert.
  - case_decide; [|apply length_insert].
    destruct (heap !! _) as [parent|]; [|apply length_insert].
    destruct (State_lt newitem parent); [|apply length_insert].
    rewrite IH. apply length_insert.
Qed.

Lemma siftdown_loop_perm fuel : forall heap startpos newitem pos,
  pos < length heap ->
  siftdown_loop fuel heap startpos newitem pos ≡ₚ <[pos := newitem]> heap.
Proof.
  induction fuel as [|fuel IH]; intros heap startpos newitem pos Hpos; cbn [siftdown_loop].
  - reflexivity.
  - case_decide as Hlt; [|reflexivity].
    destruct (heap !! _) as [parent|] eqn:Hp; [|reflexivity].
    destruct (State_lt newitem parent); [|reflexivity].
    assert ((pos - 1) / 2 < pos) as Hpar by (apply parentpos_lt; lia).
    rewrite IH by (rewrite length_insert; lia).
    apply insert_swap_hole; [lia | assumption | assumption].
Qed.

Lemma _siftdown_length heap startpos pos :
  length (_siftdown heap startpos pos) = length heap.
Proof.
  unfold _siftdown. destruct (heap !! pos); [|reflexivity].
  apply siftdown_loop_length.
Qed.

Lemma _siftdown_perm heap startpos pos : _siftdown heap startpos pos ≡ₚ heap.
Proof.
  unfold _siftdown. destruct (heap !! pos) as [newitem|] eqn:Hn; [|reflexivity].
  rewrite siftdown_loop_perm by (eapply lookup_lt_Some; eassumption).
  rewrite list_insert_id by assumption. reflexivity.
Qed.

Lemma siftup_loop_spec fuel : forall heap pos heap' pos',
  pos < length heap ->
  siftup_loop fuel heap pos = (heap', pos') ->
  length heap' = length heap /\ pos' < length heap /\
  forall newitem, <[pos' := newitem]> heap' ≡ₚ <[pos := newitem]> heap.
Proof.
  induction fuel as [|fuel IH]; intros heap pos heap' pos' Hpos; cbn [siftup_loop].
  - intros [= <- <-]. auto.
  - case_decide as Hc; [|intros [= <- <-]; auto].
    destruct (heap !! (2 * pos + 1)) as [lc|] eqn:Hlc;
      [|intros [= <- <-]; auto].
    set (childpos' := match heap !! (2 * pos + 1 + 1) with
                      | Some rc => if negb (State_lt lc rc)
                                   then 2 * pos + 1 + 1 else 2 * pos + 1
                      | None => 2 * pos + 1
                      end).
    assert (pos < childpos') as Hgt.
    { subst childpos'. destruct (heap !! (2 * pos + 1 + 1));
        [destruct (negb _)|]; lia. }
    destruct (heap !! childpos') as [c|] eqn:Hcp; [|intros [= <- <-]; auto].
    intros Hrec.
    apply IH in Hrec as (Hlen & Hlt & Hperm);
      [|rewrite length_insert; eapply lookup_lt_Some; eassumption].
    rewrite length_insert in Hlen, Hlt. repeat split; try assumption.
    intros newitem. rewrite Hperm.
    apply insert_swap_hole; [lia | assumption | assumption].
Qed.

Lemma _siftup_length heap pos : length (_siftup heap pos) = length heap.
Proof.
  unfold _siftup. destruct (heap !! pos) as [newitem|] eqn:Hn; [|reflexivity].
  destruct (siftup_loop _ heap pos) as [heap' pos'] eqn:Hl.
  apply siftup_loop_spec in Hl as (Hlen & _ & _);
    [|eapply lookup_lt_Some; eassumption].
  rewrite _siftdown_length, length_insert. assumption.
Qed.

Lemma _siftup_perm heap pos : _siftup heap pos ≡ₚ heap.
Proof.
  unfold _siftup. destruct (heap !! pos) as [newitem|] eqn:Hn; [|reflexivity].
  destruct (siftup_loop _ heap pos) as [heap' pos'] eqn:Hl.
  apply siftup_loop_spec in Hl as (_ & _ & Hperm);
    [|eapply lookup_lt_Some; eassumption].
  rewrite _siftdown_perm, Hperm, list_insert_id by assumption. reflexivity.
Qed.

Lemma heappush_length heap item : length (heappush heap item) = S (length heap).
Proof.
  unfold heappush. rewrite _siftdown_length, length_app. simpl. lia.
Qed.

Lemma heappush_perm heap item : heappush heap item ≡ₚ item :: heap.
Proof.
  unfold heappush. rewrite _siftdown_perm. symmetry. apply Permutation_cons_append.
Qed.

Lemma heappop_nil heap : heappop heap = None <-> heap = [].
Proof.
  unfold heappop. split.
  - destruct (last heap) eqn:Hl.
    + destruct (take _ heap !! 0); discriminate.
    + intros _. now apply last_None.
  - intros ->. reflexivity.
Qed.

Lemma heappop_perm heap item heap' :
  heappop heap = Some (item, heap') -> heap ≡ₚ item :: heap'.
Proof.
  unfold heappop. destruct (last heap) as [lastelt|] eqn:Hl; [|discriminate].
  apply last_Some in Hl as [front ->].
  rewrite length_app, Nat.add_sub. simpl.
  rewrite take_app_length.
  destruct (front !! 0) as [returnitem|] eqn:Hf.
  - intros [= <- <-]. rewrite _siftup_perm.
    destruct front as [|f front]; [discriminate|]. simpl in *.
    injection Hf as ->. apply Permutation_skip.
    symmetry. apply Permutation_cons_append.
  - intros [= <- <-]. destruct front; [reflexivity | discriminate].
Qed.

Lemma heappop_length heap item heap' :
  heappop heap = Some (item, heap') -> length heap = S (length heap').
Proof.
  intros H. apply heappop_perm in H. now rewrite H.
Qed.

Lemma heapify_loop_length i : forall x, length (heapify_loop i x) = length x.
Proof.
  induction i as [|i IH]; intros x; simpl; [reflexivity|].
  rewrite IH. apply _siftup_length.
Qed.

Lemma heapify_loop_perm i : forall x, heapify_loop i x ≡ₚ x.
Proof.
  induction i as [|i IH]; intros x; simpl; [reflexivity|].
  rewrite IH. apply _siftup_perm.
Qed.

Lemma heapify_perm x : heapify x ≡ₚ x.
Proof. apply heapify_loop_perm. Qed.

Lemma heapify_length x : length (heapify x) = length x.
Proof. apply heapify_loop_length. Qed.

End heapq_perm.

(** ** The searches on start = goal *)

Lemma heappush_nil (s : State) : heapq.heappush [] s = [s].
Proof. reflexivity. Qed.

Lemma heappop_singleton (s : State) : heapq.heappop [s] = Some (s, []).
Proof. reflexivity. Qed.

Lemma State_eq_refl (s : State) : State_eq s s = true.
Proof. unfold State_eq. now rewrite !Z.eqb_refl. Qed.

(** C3: with freshly constructed start and goal at the same position, both
    searches return cost 0 and one expansion, on every map. *)
Theorem search_start_is_goal (map_width : Z) (successors : State -> list State)
    (x y : Z) (fuel : nat) :
  Dijkstra_search map_width successors (S fuel) (State_init x y) (State_init x y)
    = Some (Return (0%Q, 1)) /\
  AStar_search map_width successors (S fuel) (State_init x y) (State_init x y)
    = Some (Return (0%Q, 1)).
Proof.
  split.
  - unfold Dijkstra_search. rewrite heappush_nil.
    cbn [dijkstra_loop]. unfold dijkstra_step.
    rewrite heappop_singleton, State_eq_refl, lookup_insert_eq. reflexivity.
  - unfold AStar_search. rewrite heappush_nil.
    cbn [astar_loop]. unfold astar_step.
    rewrite heappop_singleton, State_eq_refl. reflexivity.
Qed.

(** ** The improving branch of Dijkstra's relaxation *)

(** C10: when the key of the successor is recorded in CLOSED with a value
    strictly above its g-value, the visit leaves in OPEN the same states
    (a permutation: nothing pushed, nothing changed, only re-heapified) and
    lowers the recorded value of that key, and of no other key. *)
Theorem dijkstra_visit_improve (map_width : Z) (OPEN : list State)
    (CLOSED : gmap Z Q) (n_prime : State) (recorded : Q) :
  CLOSED !! state_hash map_width n_prime = Some recorded ->
  (get_g n_prime < recorded)%Q ->
  exists OPEN' CLOSED',
    dijkstra_visit map_width (OPEN, CLOSED) n_prime = (OPEN', CLOSED') /\
    OPEN' ≡ₚ OPEN /\
    CLOSED' !! state_hash map_width n_prime = Some (get_g n_prime) /\
    forall k, k <> state_hash map_width n_prime -> CLOSED' !! k = CLOSED !! k.
Proof.
  intros Hrec Hlt. unfold dijkstra_visit. rewrite Hrec.
  apply Qltb_lt in Hlt. rewrite Hlt.
  eexists _, _. split; [reflexivity|]. split; [apply heapq_perm.heapify_perm|].
  split.
  - apply lookup_insert_eq.
  - intros k Hk. apply lookup_insert_ne. intros Heq. apply Hk. symmetry. exact Heq.
Qed.

Lemma dijkstra_visit_improve_witness :
  exists OPEN' CLOSED',
    dijkstra_visit 6 ([mkState 2 1 (5 # 2) 0 (5 # 2); mkState 0 3 1 0 1],
                     <[8%Z := (5 # 2)%Q]> ∅) (mkState 2 1 2 0 0)
      = (OPEN', CLOSED') /\
    OPEN' ≡ₚ [mkState 2 1 (5 # 2) 0 (5 # 2); mkState 0 3 1 0 1] /\
    CLOSED' !! 8%Z = Some 2%Q /\
    forall k, k <> 8%Z -> CLOSED' !! k = (<[8%Z := (5 # 2)%Q]> ∅ : gmap Z Q) !! k.
Proof.
  apply (dijkstra_visit_improve 6
           [mkState 2 1 (5 # 2) 0 (5 # 2); mkState 0 3 1 0 1]
           (<[8%Z := (5 # 2)%Q]> ∅) (mkState 2 1 2 0 0) (5 # 2)%Q).
  - reflexivity.
  - reflexivity.
Defined.

Module heapq_order.
Import heapq heap_inv.

Lemma State_le_refl a : le a a.
Proof. unfold le. apply Qle_refl. Qed.

Lemma State_le_trans a b c : le a b -> le b c -> le a c.
Proof. unfold le. apply Qle_trans. Qed.

Lemma State_lt_le a b : State_lt a b = true -> le a b.
Proof. unfold State_lt, le. intros H%Qltb_lt. now apply Qlt_le_weak. Qed.

Lemma State_not_lt_le a b : State_lt a b = false -> le b a.
Proof. unfold State_lt, le. now intros H%Qltb_ge. Qed.

Lemma parent_lt i : 0 < i -> parent i < i.
Proof. unfold parent. intros H. apply Nat.Div0.div_lt_upper_bound. lia. Qed.

Lemma parent_left p : parent (2 * p + 1) = p.
Proof.
  unfold parent. replace (2 * p + 1 - 1) with (p * 2) by lia.
  apply Nat.div_mul. lia.
Qed.

Lemma parent_right p : parent (2 * p + 2) = p.
Proof.
  unfold parent. replace (2 * p + 2 - 1) with (1 + p * 2) by lia.
  rewrite Nat.div_add by lia. reflexivity.
Qed.

Lemma child_cases i : 0 < i -> i = 2 * parent i + 1 \/ i = 2 * parent i + 2.
Proof.
  unfold parent. intros H.
  pose proof (Nat.div_mod_eq (i - 1) 2) as E.
  pose proof (Nat.mod_upper_bound (i - 1) 2 ltac:(lia)) as B.
  lia.
Qed.

Lemma parent_child p c : c = 2 * p + 1 \/ c = 2 * p + 2 -> parent c = p.
Proof. intros [-> | ->]; [apply parent_left | apply parent_right]. Qed.

Lemma desc_le s p : desc s p -> s <= p.
Proof. induction 1; lia. Qed.

Lemma desc_parent s p : desc s p -> s < p -> desc s (parent p).
Proof.
  intros H Hlt. destruct H as [|q c Hq Hc]; [lia|].
  now rewrite (parent_child q c Hc).
Qed.

Lemma desc_0 p : desc 0 p.
Proof.
  induction p as [p IH] using lt_wf_ind.
  destruct (decide (p = 0)) as [->|Hp]; [constructor|].
  apply (desc_child 0 (parent p)).
  - apply IH. apply parent_lt. lia.
  - apply child_cases. lia.
Qed.

(** The root of a heap is a minimum. *)
Lemma heap_min l r : heap_ok l -> l !! 0 = Some r ->
  forall i e, l !! i = Some e -> le r e.
Proof.
  intros Hok Hr i. induction i as [i IH] using lt_wf_ind. intros e He.
  destruct (decide (i = 0)) as [->|Hi].
  - rewrite Hr in He. injection He as ->. apply State_le_refl.
  - assert (parent i < i) as Hp by (apply parent_lt; lia).
    destruct (lookup_lt_is_Some_2 l (parent i)) as [pe Hpe].
    { apply lookup_lt_Some in He. lia. }
    apply State_le_trans with pe; [now apply (IH (parent i))|].
    apply (Hok i); [lia | lia | assumption | assumption].
Qed.

(** [_siftdown] with a hole at [pos]: every edge other than the one into
    [pos] is in order (A), [newitem] fits above the children of [pos] (B),
    and the parent of [pos] fits above them too (C). *)
Lemma siftdown_loop_ok fuel : forall heap startpos newitem pos,
  pos <= fuel -> pos < length heap -> desc startpos pos ->
  (forall i, 0 < i -> i <> pos -> startpos <= parent i -> edge_ok heap i) ->
  (forall c ch, parent c = pos -> 0 < c -> heap !! c = Some ch -> le newitem ch) ->
  (startpos < pos -> forall c ch p, parent c = pos -> 0 < c ->
     heap !! c = Some ch -> heap !! parent pos = Some p -> le p ch) ->
  heap_from startpos (siftdown_loop fuel heap startpos newitem pos).
Proof.
  induction fuel as [|fuel IH]; intros heap startpos newitem pos
    Hfuel Hpos Hdesc HA HB HC; cbn [siftdown_loop].
  - assert (pos = 0) as -> by lia.
    intros i Hi Hpar c p Hc Hp.
    rewrite list_lookup_insert_ne in Hc by lia.
    destruct (decide (parent i = 0)) as [E|E].
    + rewrite E in Hp. rewrite list_lookup_insert_eq in Hp by assumption.
      injection Hp as <-. now apply (HB i).
    + rewrite list_lookup_insert_ne in Hp by lia. apply (HA i); [lia | lia | assumption | assumption | assumption].
  - fold (parent pos).
    assert ((forall par, startpos < pos -> heap !! parent pos = Some par ->
                         State_lt newitem par = false) ->
              heap_from startpos (<[pos := newitem]> heap)) as Hexit.
    { intros Hstop i Hi Hpar c p Hc Hp.
      destruct (decide (i = pos)) as [->|Hne].
      - rewrite list_lookup_insert_eq in Hc by assumption. injection Hc as <-.
        assert (parent pos < pos) by (apply parent_lt; lia).
        rewrite list_lookup_insert_ne in Hp by lia.
        apply State_not_lt_le. apply (Hstop p); [lia | assumption].
      - rewrite list_lookup_insert_ne in Hc by lia.
        destruct (decide (parent i = pos)) as [E|E].
        + rewrite E in Hp. rewrite list_lookup_insert_eq in Hp by assumption.
          injection Hp as <-. now apply (HB i).
        + rewrite list_lookup_insert_ne in Hp by lia. apply (HA i); [lia | lia | assumption | assumption | assumption]. }
    case_decide as Hlt; [|apply Hexit; intros; lia].
    assert (parent pos < pos) as Hpp by (apply parent_lt; lia).
    destruct (heap !! parent pos) as [par|] eqn:Hpar.
    2:{ apply Hexit. intros par' _ E. try rewrite Hpar in E. discriminate. }
    destruct (State_lt newitem par) eqn:Hcmp.
    2:{ apply Hexit. intros par' _ E. try rewrite Hpar in E. injection E as <-.
        assumption. }
    pose proof (desc_parent _ _ Hdesc Hlt) as Hdesc'.
    pose proof (desc_le _ _ Hdesc') as Hle'.
    apply IH; try assumption.
    + lia.
    + rewrite length_insert. lia.
    + (* A *)
      intros i Hi Hne Hs c p Hc Hp.
      destruct (decide (i = pos)) as [->|Hne2].
      * rewrite list_lookup_insert_eq in Hc by assumption. injection Hc as <-.
        rewrite list_lookup_insert_ne in Hp by lia.
        rewrite Hpar in Hp. injection Hp as <-. apply State_le_refl.
      * rewrite list_lookup_insert_ne in Hc by lia.
        destruct (decide (parent i = pos)) as [E|E].
        -- rewrite E in Hp. rewrite list_lookup_insert_eq in Hp by assumption.
           injection Hp as <-. now apply (HC Hlt i c par).
        -- rewrite list_lookup_insert_ne in Hp by lia. apply (HA i); [lia | lia | assumption | assumption | assumption].
    + (* B *)
      intros c ch Hc Hc0 Hch.
      destruct (decide (c = pos)) as [->|Hne].
      * rewrite list_lookup_insert_eq in Hch by assumption. injection Hch as <-.
        now apply State_lt_le.
      * rewrite list_lookup_insert_ne in Hch by lia.
        apply State_le_trans with par; [now apply State_lt_le|].
        apply (HA c); [lia | assumption | lia | assumption | now rewrite Hc].
    + (* C *)
      intros Hlt' c ch p Hc Hc0 Hch Hp.
      assert (parent (parent pos) < parent pos) by (apply parent_lt; lia).
      rewrite list_lookup_insert_ne in Hp by lia.
      pose proof (desc_le _ _ (desc_parent _ _ Hdesc' Hlt')) as Hle''.
      assert (le p par) as Hppar.
      { apply (HA (parent pos)); [lia | lia | assumption | assumption | assumption]. }
      destruct (decide (c = pos)) as [->|Hne].
      * rewrite list_lookup_insert_eq in Hch by assumption. injection Hch as <-.
        assumption.
      * rewrite list_lookup_insert_ne in Hch by lia.
        apply State_le_trans with par; [assumption|].
        apply (HA c); [lia | assumption | lia | assumption | now rewrite Hc].
Qed.

Lemma siftup_step_ok startpos heap pos cp c :
  desc startpos pos -> pos < length heap -> hole_ok startpos heap pos ->
  parent cp = pos -> 0 < cp -> heap !! cp = Some c ->
  (forall sib sv, parent sib = pos -> 0 < sib -> heap !! sib = Some sv -> le c sv) ->
  hole_ok startpos (<[pos := c]> heap) cp.
Proof.
  intros Hdesc Hpos HQ Hcp Hcp0 Hc Hsib i Hi Hs _ c0 p0 Hc0 Hp0.
  pose proof (desc_le _ _ Hdesc) as Hle.
  destruct (decide (i = pos)) as [->|Hne].
  - rewrite list_lookup_insert_eq in Hc0 by assumption. injection Hc0 as <-.
    assert (parent pos < pos) by (apply parent_lt; lia).
    rewrite list_lookup_insert_ne in Hp0 by lia.
    destruct (lookup_lt_is_Some_2 heap pos Hpos) as [v Hv].
    apply State_le_trans with v.
    + apply (HQ pos); [lia | lia | lia | assumption | assumption].
    + apply (HQ cp); [lia | lia | lia | assumption | now rewrite Hcp].
  - rewrite list_lookup_insert_ne in Hc0 by lia.
    destruct (decide (parent i = pos)) as [E|E].
    + rewrite E in Hp0. rewrite list_lookup_insert_eq in Hp0 by assumption.
      injection Hp0 as <-. now apply (Hsib i).
    + rewrite list_lookup_insert_ne in Hp0 by lia.
      apply (HQ i); [lia | lia | lia | assumption | assumption].
Qed.

Lemma siftup_loop_ok startpos fuel : forall heap pos heap' pos',
  siftup_loop fuel heap pos = (heap', pos') ->
  length heap <= pos + fuel -> pos < length heap ->
  desc startpos pos -> hole_ok startpos heap pos ->
  hole_ok startpos heap' pos' /\ desc startpos pos' /\
  length heap' <= 2 * pos' + 1 /\ pos' < length heap'.
Proof.
  induction fuel as [|fuel IH]; intros heap pos heap' pos';
    cbn [siftup_loop]; intros Hrun Hfuel Hpos Hdesc HQ.
  - lia.
  - case_decide as Hchild.
    2:{ injection Hrun as <- <-. repeat split; try assumption. lia. }
    destruct (heap !! (2 * pos + 1)) as [lc|] eqn:Hlc.
    2:{ apply lookup_ge_None in Hlc. lia. }
    assert (exists cp c, pos < cp /\ parent cp = pos /\ heap !! cp = Some c /\
              (forall sib sv, parent sib = pos -> 0 < sib ->
                 heap !! sib = Some sv -> le c sv) /\
              siftup_loop fuel (<[pos := c]> heap) cp = (heap', pos'))
      as (cp & c & Hgt & Hpar & Hc & Hsib & Hrec).
    { assert (forall sib, parent sib = pos -> 0 < sib ->
                sib = 2 * pos + 1 \/ sib = 2 * pos + 1 + 1) as Hcases.
      { intros sib E H0. pose proof (child_cases sib H0). lia. }
      destruct (heap !! (2 * pos + 1 + 1)) as [rc|] eqn:Hrc.
      - destruct (State_lt lc rc) eqn:Hcmp; cbn [negb] in Hrun.
        + rewrite Hlc in Hrun. exists (2 * pos + 1), lc.
          repeat split; [lia | apply parent_left | assumption | | assumption].
          intros sib sv E H0 Hsv. destruct (Hcases sib E H0) as [-> | ->].
          * rewrite Hlc in Hsv. injection Hsv as <-. apply State_le_refl.
          * rewrite Hrc in Hsv. injection Hsv as <-. now apply State_lt_le.
        + rewrite Hrc in Hrun. exists (2 * pos + 1 + 1), rc.
          repeat split; [lia | | assumption | | assumption].
          { replace (2 * pos + 1 + 1) with (2 * pos + 2) by lia.
            apply parent_right. }
          intros sib sv E H0 Hsv. destruct (Hcases sib E H0) as [-> | ->].
          * rewrite Hlc in Hsv. injection Hsv as <-. now apply State_not_lt_le.
          * rewrite Hrc in Hsv. injection Hsv as <-. apply State_le_refl.
      - rewrite Hlc in Hrun. exists (2 * pos + 1), lc.
        repeat split; [lia | apply parent_left | assumption | | assumption].
        intros sib sv E H0 Hsv. destruct (Hcases sib E H0) as [-> | ->].
        + rewrite Hlc in Hsv. injection Hsv as <-. apply State_le_refl.
        + rewrite Hrc in Hsv. discriminate. }
    assert (cp < length heap) as Hcplt by (eapply lookup_lt_Some; eassumption).
    apply IH in Hrec; rewrite ?length_insert in *; try lia.
    + exact Hrec.
    + apply (desc_child startpos pos); [assumption|].
      pose proof (child_cases cp ltac:(lia)). lia.
    + apply siftup_step_ok; try assumption. lia.
Qed.

Lemma _siftup_ok heap pos :
  heap_from (S pos) heap -> heap_from pos (_siftup heap pos).
Proof.
  intros Hfrom. unfold _siftup.
  destruct (heap !! pos) as [newitem|] eqn:Hn.
  2:{ apply lookup_ge_None in Hn. intros i Hi Hp c p _ Hpar.
      apply lookup_lt_Some in Hpar. lia. }
  assert (pos < length heap) as Hpos by (eapply lookup_lt_Some; eassumption).
  destruct (siftup_loop (length heap) heap pos) as [heap' pos'] eqn:Hrun.
  apply (siftup_loop_ok pos) in Hrun as (HQ & Hdesc & Hleaf & Hlt);
    [| lia | assumption | constructor |].
  2:{ intros i Hi Hs Hne. apply Hfrom; [assumption|].
      specialize (Hne eq_refl). lia. }
  unfold _siftdown. rewrite list_lookup_insert_eq by assumption.
  assert (forall c ch, parent c = pos' -> 0 < c ->
            <[pos' := newitem]> heap' !! c = Some ch -> False) as Hnochild.
  { intros c ch E H0 Hch. apply lookup_lt_Some in Hch.
    rewrite length_insert in Hch. pose proof (child_cases c H0). lia. }
  apply siftdown_loop_ok.
  - lia.
  - now rewrite length_insert.
  - assumption.
  - intros i Hi Hne Hs c p Hc Hp.
    destruct (decide (parent i = pos')) as [E|E].
    { exfalso. eapply (Hnochild i); eassumption. }
    rewrite list_lookup_insert_ne in Hc by lia.
    rewrite list_lookup_insert_ne in Hp by lia.
    apply (HQ i); [lia | lia | lia | assumption | assumption].
  - intros c ch E H0 Hch. exfalso. eapply Hnochild; eassumption.
  - intros _ c ch p E H0 Hch _. exfalso. eapply Hnochild; eassumption.
Qed.

Lemma heappush_ok heap item : heap_ok heap -> heap_ok (heappush heap item).
Proof.
  intros Hok. unfold heappush, _siftdown.
  rewrite length_app. cbn [length]. rewrite Nat.add_sub.
  rewrite lookup_app_r, Nat.sub_diag by lia. cbn [lookup list_lookup].
  assert (forall c ch, parent c = length heap -> 0 < c ->
            (heap ++ [item]) !! c = Some ch -> False) as Hnochild.
  { intros c ch E H0 Hch. apply lookup_lt_Some in Hch.
    rewrite length_app in Hch. cbn [length] in Hch.
    pose proof (child_cases c H0). lia. }
  apply siftdown_loop_ok.
  - lia.
  - rewrite length_app. cbn [length]. lia.
  - apply desc_0.
  - intros i Hi Hne _ c p Hc Hp.
    assert (i < length heap) as Hil.
    { apply lookup_lt_Some in Hc. rewrite length_app in Hc.
      cbn [length] in Hc. lia. }
    pose proof (parent_lt i Hi).
    rewrite lookup_app_l in Hc by lia. rewrite lookup_app_l in Hp by lia.
    apply (Hok i); [lia | lia | assumption | assumption].
  - intros c ch E H0 Hch. exfalso. eapply Hnochild; eassumption.
  - intros _ c ch p E H0 Hch _. exfalso. eapply Hnochild; eassumption.
Qed.

Lemma heap_ok_prefix front back : heap_ok (front ++ back) -> heap_ok front.
Proof.
  intros Hok i Hi _ c p Hc Hp.
  apply (Hok i); [lia | lia | |].
  - rewrite lookup_app_l; [assumption | eapply lookup_lt_Some; eassumption].
  - rewrite lookup_app_l; [assumption | eapply lookup_lt_Some; eassumption].
Qed.

Lemma heappop_ok heap item heap' :
  heap_ok heap -> heappop heap = Some (item, heap') ->
  heap_ok heap' /\ forall e, e ∈ heap' -> le item e.
Proof.
  intros Hok Hpop.
  assert (forall e, e ∈ heap' -> e ∈ heap) as Hsub.
  { intros e He. rewrite (heapq_perm.heappop_perm _ _ _ Hpop). now right. }
  revert Hpop. unfold heappop.
  destruct (last heap) as [lastelt|] eqn:Hl; [|discriminate].
  apply last_Some in Hl as [front ->].
  rewrite length_app. cbn [length]. rewrite Nat.add_sub, take_app_length.
  destruct (front !! 0) as [returnitem|] eqn:Hf.
  - intros [= <- <-]. split.
    + apply _siftup_ok. intros i Hi Hp c p Hc Hpar.
      pose proof (parent_lt i Hi).
      rewrite list_lookup_insert_ne in Hc by lia.
      rewrite list_lookup_insert_ne in Hpar by lia.
      apply (heap_ok_prefix _ _ Hok i); [lia | lia | assumption | assumption].
    + intros e He. apply Hsub in He.
      apply list_elem_of_lookup in He as [i Hi].
      apply (heap_min _ returnitem Hok) with i; [|assumption].
      rewrite lookup_app_l; [assumption | eapply lookup_lt_Some; eassumption].
  - intros [= <- <-]. split.
    + eapply heap_ok_prefix; eassumption.
    + intros e He. destruct front; [inversion He | discriminate].
Qed.

Lemma heapify_loop_ok i : forall x,
  heap_from i x -> heap_ok (heapify_loop i x).
Proof.
  induction i as [|i IH]; intros x Hx; cbn [heapify_loop]; [exact Hx|].
  apply IH. now apply _siftup_ok.
Qed.

Lemma heapify_ok x : heap_ok (heapify x).
Proof.
  apply heapify_loop_ok. intros i Hi Hp c p Hc _.
  apply lookup_lt_Some in Hc. pose proof (child_cases i Hi).
  pose proof (Nat.div_mod_eq (length x) 2).
  pose proof (Nat.mod_upper_bound (length x) 2 ltac:(lia)). lia.
Qed.

End heapq_order.

(** ** Dijkstra: every state of OPEN has its key in CLOSED *)

Section Dijkstra_keys.

Variable map_width : Z.
Variable successors : State -> list State.

Local Abbreviation hash := (state_hash map_width).

Local Abbreviation keys_recorded := (keys_recorded map_width).

Lemma dijkstra_visit_keys OPEN CLOSED n_prime :
  keys_recorded OPEN CLOSED ->
  keys_recorded (dijkstra_visit map_width (OPEN, CLOSED) n_prime).1
                (dijkstra_visit map_width (OPEN, CLOSED) n_prime).2.
Proof.
  intros Hinv. unfold dijkstra_visit.
  destruct (CLOSED !! hash n_prime) as [recorded|] eqn:Hrec.
  - destruct (Qltb (get_g n_prime) recorded); [|exact Hinv].
    cbn [fst snd]. intros s Hs. rewrite heapq_perm.heapify_perm in Hs.
    rewrite lookup_insert_is_Some. destruct (Hinv s Hs) as [v Hv].
    destruct (decide (hash (set_cost n_prime (get_g n_prime)) = hash s)); eauto.
  - cbn [fst snd]. intros s Hs. rewrite heapq_perm.heappush_perm in Hs.
    rewrite lookup_insert_is_Some.
    apply elem_of_cons in Hs as [-> | Hs]; [now left|].
    destruct (Hinv s Hs) as [v Hv].
    destruct (decide (hash (set_cost n_prime (get_g n_prime)) = hash s)); eauto.
Qed.

Lemma dijkstra_visits_keys l : forall OPEN CLOSED,
  keys_recorded OPEN CLOSED ->
  keys_recorded (foldl (dijkstra_visit map_width) (OPEN, CLOSED) l).1
                (foldl (dijkstra_visit map_width) (OPEN, CLOSED) l).2.
Proof.
  induction l as [|n_prime l IH]; intros OPEN CLOSED Hinv; [exact Hinv|].
  cbn [foldl].
  destruct (dijkstra_visit map_width (OPEN, CLOSED) n_prime) as [O1 C1] eqn:E.
  apply IH. pose proof (dijkstra_visit_keys OPEN CLOSED n_prime Hinv) as H.
  now rewrite E in H.
Qed.

Lemma dijkstra_step_keys goal OPEN CLOSED n OPEN' CLOSED' n' :
  keys_recorded OPEN CLOSED ->
  dijkstra_step map_width successors goal OPEN CLOSED n = inr (OPEN', CLOSED', n') ->
  keys_recorded OPEN' CLOSED' /\ n' = n + 1.
Proof.
  intros Hinv. unfold dijkstra_step.
  destruct (heapq.heappop OPEN) as [[node OPEN1]|] eqn:Hpop; [|discriminate].
  destruct (State_eq node goal).
  { destruct (CLOSED !! hash node); discriminate. }
  destruct (foldl _ _ _) as [O2 C2] eqn:E. intros [= <- <- <-].
  split; [|reflexivity].
  assert (keys_recorded OPEN1 CLOSED) as Hinv1.
  { intros s Hs. apply Hinv.
    rewrite (heapq_perm.heappop_perm _ _ _ Hpop). now right. }
  pose proof (dijkstra_visits_keys (successors node) OPEN1 CLOSED Hinv1) as H.
  now rewrite E in H.
Qed.

Lemma dijkstra_iter_keys goal k : forall OPEN CLOSED n OPEN' CLOSED' n',
  keys_recorded OPEN CLOSED ->
  dijkstra_iter map_width successors k goal OPEN CLOSED n = Some (OPEN', CLOSED', n') ->
  keys_recorded OPEN' CLOSED' /\ n' = n + k.
Proof.
  induction k as [|k IH]; intros OPEN CLOSED n OPEN' CLOSED' n' Hinv;
    cbn [dijkstra_iter].
  - intros [= <- <- <-]. split; [assumption | lia].
  - destruct (dijkstra_step _ _ _ _ _ _) as [r|[[O1 C1] n1]] eqn:Hstep;
      [discriminate|].
    apply dijkstra_step_keys in Hstep as [Hinv1 ->]; [|assumption].
    intros Hiter. apply IH in Hiter as [? ->]; [|assumption]. split; [assumption | lia].
Qed.

Lemma dijkstra_loop_iter goal k : forall fuel OPEN CLOSED n OPEN' CLOSED' n',
  dijkstra_iter map_width successors k goal OPEN CLOSED n = Some (OPEN', CLOSED', n') ->
  dijkstra_loop map_width successors (k + fuel) goal OPEN CLOSED n
  = dijkstra_loop map_width successors fuel goal OPEN' CLOSED' n'.
Proof.
  induction k as [|k IH]; intros fuel OPEN CLOSED n OPEN' CLOSED' n';
    cbn [dijkstra_iter].
  - now intros [= <- <- <-].
  - cbn [Nat.add dijkstra_loop].
    destruct (dijkstra_step _ _ _ _ _ _) as [r|[[O1 C1] n1]]; [discriminate|].
    apply IH.
Qed.

Lemma keys_recorded_init start :
  keys_recorded (heapq.heappush [] start) (<[hash start := get_cost start]> ∅).
Proof.
  intros s Hs. rewrite heappush_nil in Hs.
  apply list_elem_of_singleton in Hs as ->. rewrite lookup_insert_eq. eauto.
Qed.

End Dijkstra_keys.

(** C7: when the state popped at iteration k+1 of [Dijkstra.search] equals
    the goal, the search returns the value that CLOSED records under the
    goal's key (the lookup does not fail), whatever the cost field of the
    popped instance, with the expansion count k+1, which counts that pop. *)
Theorem dijkstra_goal_pop (map_width : Z) (successors : State -> list State)
    (start goal : State) (k fuel : nat) (OPEN : list State)
    (CLOSED : gmap Z Q) (n : nat) (node : State) (OPEN1 : list State) :
  Dijkstra_after map_width successors k start goal = Some (OPEN, CLOSED, n) ->
  heapq.heappop OPEN = Some (node, OPEN1) ->
  State_eq node goal = true ->
  exists c, CLOSED !! state_hash map_width goal = Some c /\
    Dijkstra_search map_width successors (k + S fuel) start goal
    = Some (Return (c, k + 1)).
Proof.
  intros Hafter Hpop Heq. unfold Dijkstra_after in Hafter.
  pose proof (dijkstra_iter_keys map_width successors goal k _ _ _ _ _ _
                (keys_recorded_init map_width start) Hafter) as [Hinv ->].
  assert (node ∈ OPEN) as Hin.
  { rewrite (heapq_perm.heappop_perm _ _ _ Hpop). now left. }
  destruct (Hinv node Hin) as [c Hc].
  assert (state_hash map_width node = state_hash map_width goal) as Hk.
  { apply State_eq_spec in Heq as [Hx Hy]. unfold state_hash. now rewrite Hx, Hy. }
  exists c. split; [now rewrite <- Hk|].
  unfold Dijkstra_search.
  rewrite (dijkstra_loop_iter map_width successors goal k (S fuel) _ _ _ _ _ _ Hafter).
  cbn [dijkstra_loop]. unfold dijkstra_step. rewrite Hpop, Heq, Hc.
  reflexivity.
Qed.

Lemma dijkstra_goal_pop_witness :
  exists c,
    Dijkstra_search 6 (grid_successors wall_map) 26 (State_init 0 2) (State_init 4 4)
    = Some (Return (c, 26)).
Proof.
  let v := eval vm_compute in
    (Dijkstra_after 6 (grid_successors wall_map) 25 (State_init 0 2) (State_init 4 4)) in
  match v with
  | Some (?OP, ?CL, ?n) =>
      let p := eval vm_compute in (heapq.heappop OP) in
      match p with
      | Some (?node, ?OP1) =>
          destruct (dijkstra_goal_pop 6 (grid_successors wall_map)
                      (State_init 0 2) (State_init 4 4) 25 0 OP CL n node OP1)
            as (c & _ & Hs);
          [ vm_compute; reflexivity | vm_compute; reflexivity | reflexivity
          | exists c; exact Hs ]
      end
  end.
Defined.

(** ** Dijkstra: the costs of the popped states do not decrease *)

Section Dijkstra_monotone.

Variable map_width : Z.
Variable successors : State -> list State.

(** The map stamps a successor with a g-value that is not below the
    g-value of the expanded state (no negative edge cost). *)
Hypothesis successors_g : forall s s', s' ∈ successors s -> (_g s <= _g s')%Q.

Lemma dijkstra_visit_open_ok lb OPEN CLOSED n_prime :
  open_ok lb OPEN -> (lb <= _g n_prime)%Q ->
  open_ok lb (dijkstra_visit map_width (OPEN, CLOSED) n_prime).1.
Proof.
  intros [Hheap Hall] Hlb. unfold dijkstra_visit.
  destruct (CLOSED !! _) as [recorded|].
  - destruct (Qltb (get_g n_prime) recorded); [|now split].
    cbn [fst]. split; [apply heapq_order.heapify_ok|].
    intros e He. rewrite heapq_perm.heapify_perm in He. now apply Hall.
  - cbn [fst]. split; [now apply heapq_order.heappush_ok|].
    intros e He. rewrite heapq_perm.heappush_perm in He.
    apply elem_of_cons in He as [-> | He]; [|now apply Hall].
    cbn. split; [assumption | apply Qle_refl].
Qed.

Lemma dijkstra_visits_open_ok lb l : forall OPEN CLOSED,
  open_ok lb OPEN -> (forall n_prime, n_prime ∈ l -> (lb <= _g n_prime)%Q) ->
  open_ok lb (foldl (dijkstra_visit map_width) (OPEN, CLOSED) l).1.
Proof.
  induction l as [|n_prime l IH]; intros OPEN CLOSED Hok Hl; [exact Hok|].
  cbn [foldl].
  destruct (dijkstra_visit map_width (OPEN, CLOSED) n_prime) as [O1 C1] eqn:E.
  apply IH.
  - pose proof (dijkstra_visit_open_ok lb OPEN CLOSED n_prime Hok) as H.
    rewrite E in H. apply H. apply Hl. now left.
  - intros n Hn. apply Hl. now right.
Qed.

Lemma dijkstra_popped_sorted fuel : forall goal OPEN CLOSED n lb,
  open_ok lb OPEN ->
  Forall (fun e => (lb <= _cost e)%Q)
    (dijkstra_popped map_width successors fuel goal OPEN CLOSED n) /\
  StronglySorted (fun a b => (_cost a <= _cost b)%Q)
    (dijkstra_popped map_width successors fuel goal OPEN CLOSED n).
Proof.
  induction fuel as [|fuel IH]; intros goal OPEN CLOSED n lb Hok;
    cbn [dijkstra_popped]; [split; constructor|].
  destruct (heapq.heappop OPEN) as [[node OPEN1]|] eqn:Hpop; [|split; constructor].
  destruct Hok as [Hheap Hall].
  destruct (heapq_order.heappop_ok _ _ _ Hheap Hpop) as [Hheap1 Hmin].
  assert (node ∈ OPEN) as Hnode.
  { rewrite (heapq_perm.heappop_perm _ _ _ Hpop). now left. }
  destruct (Hall node Hnode) as [Hlb Hg].
  unfold dijkstra_step. rewrite Hpop.
  destruct (State_eq node goal).
  { destruct (CLOSED !! _); split; repeat constructor; assumption. }
  destruct (foldl _ _ _) as [O2 C2] eqn:E.
  assert (open_ok (_cost node) O2) as Hok2.
  { pose proof (dijkstra_visits_open_ok (_cost node) (successors node) OPEN1 CLOSED)
      as H. rewrite E in H. apply H.
    - split; [assumption|]. intros e He. split; [now apply Hmin|].
      apply Hall. rewrite (heapq_perm.heappop_perm _ _ _ Hpop). now right.
    - intros n_prime Hn. eapply Qle_trans; [exact Hg|]. now apply successors_g. }
  destruct (IH goal O2 C2 (n + 1) (_cost node) Hok2) as [Hge Hsorted].
  split.
  - constructor; [assumption|].
    eapply Forall_impl; [exact Hge|]. intros e He. cbn in He.
    eapply Qle_trans; eassumption.
  - constructor; assumption.
Qed.

Lemma StronglySorted_lookup_le (l : list State) :
  StronglySorted (fun a b => (_cost a <= _cost b)%Q) l ->
  forall i j a b, i <= j -> l !! i = Some a -> l !! j = Some b ->
  (_cost a <= _cost b)%Q.
Proof.
  induction 1 as [|x l Hs IH Hx]; intros i j a b Hij Ha Hb.
  - rewrite lookup_nil in Ha. discriminate.
  - destruct i as [|i], j as [|j]; cbn in Ha, Hb.
    + injection Ha as <-. injection Hb as <-. apply Qle_refl.
    + injection Ha as <-. rewrite Forall_forall in Hx. apply Hx.
      eapply list_elem_of_lookup_2. eassumption.
    + lia.
    + apply (IH i j); [lia | assumption | assumption].
Qed.

End Dijkstra_monotone.

(** C8 (as stated, refuted): the costs of the popped states can decrease.
    On [wall_map], from a start at (0,2) that carries cost 5 and g-value 0,
    the first pop has cost 5 and the second has cost 1: the start is pushed
    with the cost it brings, its successors with their g-value. *)
Lemma dijkstra_pops_not_monotone :
  ~ (forall (map_width : Z) (successors : State -> list State)
       (start goal : State) (fuel i j : nat) (a b : State),
       i <= j ->
       Dijkstra_popped map_width successors fuel start goal !! i = Some a ->
       Dijkstra_popped map_width successors fuel start goal !! j = Some b ->
       (_cost a <= _cost b)%Q).
Proof.
  intros H.
  assert (5 <= 1)%Q as Hle; [|revert Hle; vm_compute; intros Hle; now apply Hle].
  apply (H 6%Z (grid_successors wall_map) (mkState 0 2 0 0 5) (State_init 5 4)
           2 0 1 (mkState 0 2 0 0 5) (mkState 0 1 1 0 1)).
  - lia.
  - vm_compute. reflexivity.
  - vm_compute. reflexivity.
Qed.

(** C8 (amended): on a map that stamps every successor with a g-value not
    below the g-value of the expanded state, and from a start whose cost is
    not above its g-value (a fresh start has both 0), the costs of the
    states popped by [Dijkstra.search] never decrease: a state popped
    earlier has a cost less than or equal to the cost of every state popped
    later. *)
Theorem dijkstra_pops_monotone (map_width : Z) (successors : State -> list State)
    (start goal : State) (fuel : nat) :
  (forall s s', s' ∈ successors s -> (_g s <= _g s')%Q) ->
  (_cost start <= _g start)%Q ->
  forall i j a b, i <= j ->
    Dijkstra_popped map_width successors fuel start goal !! i = Some a ->
    Dijkstra_popped map_width successors fuel start goal !! j = Some b ->
    (_cost a <= _cost b)%Q.
Proof.
  intros Hg Hstart.
  apply StronglySorted_lookup_le. unfold Dijkstra_popped.
  apply (dijkstra_popped_sorted map_width successors Hg fuel goal _ _ 0 (_cost start)).
  split.
  - apply heapq_order.heappush_ok. intros i Hi _ c p Hc. rewrite lookup_nil in Hc.
    discriminate.
  - intros e He. rewrite heappush_nil in He.
    apply list_elem_of_singleton in He as ->. split; [apply Qle_refl | assumption].
Qed.

(** ** Dijkstra and A* on the map with two obstacles *)

(** C1 (the code at a failing input): on [wall_map], from (0,2) to (5,4),
    [Dijkstra.search] returns cost 7 while [AStar.search] returns 6.5, and
    the path (0,3), (1,4), (2,4), (3,4), (4,4), (5,4) of the map costs 6.5:
    the two searches disagree and Dijkstra's cost is not the minimum. *)
Theorem dijkstra_wall_map_not_minimal :
  exists cd ca cp,
    Dijkstra_search 6 (grid_successors wall_map) 28 (State_init 0 2) (State_init 5 4)
      = Some (Return (cd, 28)) /\
    AStar_search 6 (grid_successors wall_map) 7 (State_init 0 2) (State_init 5 4)
      = Some (Return (ca, 7)) /\
    path_cost wall_map (0, 2)%Z [(0, 3); (1, 4); (2, 4); (3, 4); (4, 4); (5, 4)]%Z
      = Some cp /\
    (cd == 7)%Q /\ (ca == 13 # 2)%Q /\ (cp == 13 # 2)%Q /\ (cp < cd)%Q.
Proof.
  eexists _, _, _.
  split; [vm_compute; reflexivity|].
  split; [vm_compute; reflexivity|].
  split; [vm_compute; reflexivity|].
  repeat split.
Qed.

(** ** [self.OPEN.index]: the first equal state *)

Lemma list_index_None l s :
  list_index l s = None -> forall e, e ∈ l -> State_eq e s = false.
Proof.
  induction l as [|t l IH]; cbn [list_index]; intros H e He; [inversion He|].
  destruct (State_eq t s) eqn:Et; [discriminate|].
  destruct (list_index l s); [discriminate|].
  apply elem_of_cons in He as [-> | He]; [assumption | now apply IH].
Qed.

Lemma list_index_Some l s : forall i,
  list_index l s = Some i ->
  exists e, l !! i = Some e /\ State_eq e s = true /\
    forall j e', j < i -> l !! j = Some e' -> State_eq e' s = false.
Proof.
  induction l as [|t l IH]; cbn [list_index]; intros i H; [discriminate|].
  destruct (State_eq t s) eqn:Et.
  - injection H as <-. exists t. repeat split; [assumption|]. intros; lia.
  - destruct (list_index l s) as [i'|]; [|discriminate].
    injection H as <-. destruct (IH i' eq_refl) as (e & He & Heq & Hfirst).
    exists e. repeat split; [assumption | assumption|].
    intros [|j] e' Hj He'; cbn in He'.
    + now injection He' as <-.
    + apply (Hfirst j); [lia | assumption].
Qed.

Lemma State_eq_pos e s : State_eq e s = true <-> pos e = pos s.
Proof.
  rewrite State_eq_spec. unfold pos. split; [intros [-> ->]; reflexivity|].
  intros [= -> ->]. auto.
Qed.


(** ** An unreachable goal: both searches exhaust OPEN *)

Section Unreachable.

Variable map_width : Z.
Variable successors : State -> list State.
Variables start goal : State.

(** The map is finite: the positions reachable from the start lie in [P]. *)
Variable P : gset (Z * Z).
Hypothesis reachable_finite :
  forall q, reachable successors start q -> q ∈ P.
Hypothesis goal_unreachable :
  forall q, reachable successors start q -> q <> pos goal.

Local Abbreviation hash := (state_hash map_width).

Local Abbreviation all_reachable := (all_reachable successors start).

Lemma hash_key s : hash s = key map_width (pos s).
Proof. reflexivity. Qed.

Lemma reachable_successor node n_prime :
  reachable successors start (pos node) -> n_prime ∈ successors node ->
  reachable successors start (pos n_prime).
Proof.
  intros Hr Hin. eapply rtc_r; [exact Hr|]. exists node, n_prime. auto.
Qed.

Lemma reachable_not_goal s :
  reachable successors start (pos s) -> State_eq s goal = false.
Proof.
  intros Hr. apply State_eq_false.
  pose proof (goal_unreachable _ Hr) as Hne. unfold pos in Hne.
  destruct (decide (_x s = _x goal)) as [Ex|Ex]; [|now left].
  right. intros Ey. apply Hne. now rewrite Ex, Ey.
Qed.

Lemma dijkstra_visit_measure OPEN CLOSED n_prime :
  all_reachable OPEN -> reachable successors start (pos n_prime) ->
  all_reachable (dijkstra_visit map_width (OPEN, CLOSED) n_prime).1 /\
  length (dijkstra_visit map_width (OPEN, CLOSED) n_prime).1
  + size (unseen_dijkstra map_width P (dijkstra_visit map_width (OPEN, CLOSED) n_prime).2)
  <= length OPEN + size (unseen_dijkstra map_width P CLOSED).
Proof.
  intros Hall Hr. unfold dijkstra_visit.
  destruct (CLOSED !! hash n_prime) as [recorded|] eqn:Hrec.
  - destruct (Qltb (get_g n_prime) recorded);
      [|cbn [fst snd]; split; [assumption | lia]].
    cbn [fst snd]. split.
    + intros s Hs. rewrite heapq_perm.heapify_perm in Hs. now apply Hall.
    + rewrite heapq_perm.heapify_length.
      apply Nat.add_le_mono_l, subseteq_size.
      intros p. unfold unseen_dijkstra. rewrite !elem_of_filter, dom_insert_L.
      set_solver.
  - cbn [fst snd]. split.
    + intros s Hs. rewrite heapq_perm.heappush_perm in Hs.
      apply elem_of_cons in Hs as [-> | Hs]; [exact Hr | now apply Hall].
    + rewrite heapq_perm.heappush_length.
      assert (unseen_dijkstra map_width P
                (<[hash (set_cost n_prime (get_g n_prime))
                   := get_cost (set_cost n_prime (get_g n_prime))]> CLOSED)
              ⊂ unseen_dijkstra map_width P CLOSED) as Hsub.
      { unfold unseen_dijkstra. split.
        - intros p. rewrite !elem_of_filter, dom_insert_L. set_solver.
        - intros Hback. specialize (Hback (pos n_prime)).
          rewrite !elem_of_filter, dom_insert_L in Hback.
          destruct Hback as [Hk _].
          + split; [|now apply reachable_finite].
            rewrite <- hash_key. now apply not_elem_of_dom.
          + apply Hk. apply elem_of_union_l, elem_of_singleton. reflexivity. }
      apply subset_size in Hsub. lia.
Qed.

Lemma dijkstra_visits_measure l : forall OPEN CLOSED,
  all_reachable OPEN ->
  (forall n_prime, n_prime ∈ l -> reachable successors start (pos n_prime)) ->
  all_reachable (foldl (dijkstra_visit map_width) (OPEN, CLOSED) l).1 /\
  length (foldl (dijkstra_visit map_width) (OPEN, CLOSED) l).1
  + size (unseen_dijkstra map_width P (foldl (dijkstra_visit map_width) (OPEN, CLOSED) l).2)
  <= length OPEN + size (unseen_dijkstra map_width P CLOSED).
Proof.
  induction l as [|n_prime l IH]; intros OPEN CLOSED Hall Hl;
    [split; [assumption | cbn; lia]|].
  cbn [foldl].
  destruct (dijkstra_visit_measure OPEN CLOSED n_prime Hall) as [Hall1 Hm1].
  { apply Hl. now left. }
  destruct (dijkstra_visit map_width (OPEN, CLOSED) n_prime) as [O1 C1].
  cbn [fst snd] in *.
  destruct (IH O1 C1 Hall1) as [Hall2 Hm2].
  { intros n Hn. apply Hl. now right. }
  split; [assumption | lia].
Qed.

Lemma dijkstra_loop_exhausts fuel : forall OPEN CLOSED n,
  all_reachable OPEN ->
  length OPEN + size (unseen_dijkstra map_width P CLOSED) < fuel ->
  dijkstra_loop map_width successors fuel goal OPEN CLOSED n
  = Some (Return ((-1)%Q, 0)).
Proof.
  induction fuel as [|fuel IH]; intros OPEN CLOSED n Hall Hfuel; [lia|].
  cbn [dijkstra_loop]. unfold dijkstra_step.
  destruct (heapq.heappop OPEN) as [[node OPEN1]|] eqn:Hpop; [|reflexivity].
  pose proof (heapq_perm.heappop_perm _ _ _ Hpop) as Hperm.
  pose proof (heapq_perm.heappop_length _ _ _ Hpop) as Hlen.
  assert (reachable successors start (pos node)) as Hnode.
  { apply Hall. rewrite Hperm. now left. }
  rewrite (reachable_not_goal node Hnode).
  destruct (dijkstra_visits_measure (successors node) OPEN1 CLOSED) as [Hall2 Hm2].
  { intros s Hs. apply Hall. rewrite Hperm. now right. }
  { intros n_prime Hn. now apply (reachable_successor node). }
  destruct (foldl _ _ _) as [O2 C2]. cbn [fst snd] in *.
  apply IH; [assumption | lia].
Qed.

Lemma astar_visit_measure OPEN (CLOSED : gmap Z State) n_prime :
  all_reachable OPEN -> reachable successors start (pos n_prime) ->
  all_reachable (astar_visit map_width goal CLOSED OPEN n_prime) /\
  length (astar_visit map_width goal CLOSED OPEN n_prime)
  + size (unseen_astar map_width P (astar_visit map_width goal CLOSED OPEN n_prime) CLOSED)
  <= length OPEN + size (unseen_astar map_width P OPEN CLOSED).
Proof.
  intros Hall Hr. unfold astar_visit.
  destruct (CLOSED !! hash n_prime) eqn:Hcl; [split; [assumption | lia]|].
  destruct (list_index OPEN n_prime) as [i|] eqn:Hidx.
  - apply list_index_Some in Hidx as (e & He & Heq & _). rewrite He.
    destruct (Qltb (get_g n_prime) (get_g e)); [|split; [assumption | lia]].
    set (e' := set_cost (set_g e (get_g n_prime)) _).
    assert (pos <$> <[i := e']> OPEN = pos <$> OPEN) as Hpos.
    { rewrite list_fmap_insert. apply list_insert_id.
      rewrite list_lookup_fmap, He. reflexivity. }
    split.
    + intros s Hs. rewrite heapq_perm.heapify_perm in Hs.
      apply list_elem_of_lookup in Hs as [j Hj].
      apply list_lookup_insert_Some in Hj as [(-> & <- & _) | (_ & Hj)].
      * apply (Hall e). eapply list_elem_of_lookup_2; eassumption.
      * apply Hall. eapply list_elem_of_lookup_2; eassumption.
    + rewrite heapq_perm.heapify_length, length_insert.
      apply Nat.add_le_mono_l, subseteq_size.
      intros p. unfold unseen_astar. rewrite !elem_of_filter.
      rewrite heapq_perm.heapify_perm, Hpos. tauto.
  - pose proof (list_index_None _ _ Hidx) as Hnone.
    set (n2 := set_cost n_prime _).
    assert (pos n_prime ∉ pos <$> OPEN) as Hfresh.
    { intros (e & Hpe & He)%list_elem_of_fmap.
      specialize (Hnone e He). symmetry in Hpe.
      apply State_eq_pos in Hpe. congruence. }
    split.
    + intros s Hs. rewrite heapq_perm.heappush_perm in Hs.
      apply elem_of_cons in Hs as [-> | Hs]; [exact Hr | now apply Hall].
    + rewrite heapq_perm.heappush_length.
      assert (unseen_astar map_width P (heapq.heappush OPEN n2) CLOSED
              ⊂ unseen_astar map_width P OPEN CLOSED) as Hsub.
      { unfold unseen_astar. split.
        - intros p. rewrite !elem_of_filter, heapq_perm.heappush_perm.
          rewrite fmap_cons, not_elem_of_cons. tauto.
        - intros Hback. specialize (Hback (pos n_prime)).
          rewrite !elem_of_filter, heapq_perm.heappush_perm in Hback.
          destruct Hback as [[Hk _] _].
          + repeat split; [assumption | | now apply reachable_finite].
            rewrite <- hash_key. now apply not_elem_of_dom.
          + apply Hk. rewrite fmap_cons. now left. }
      apply subset_size in Hsub. lia.
Qed.

Lemma astar_visits_measure (CLOSED : gmap Z State) l : forall OPEN,
  all_reachable OPEN ->
  (forall n_prime, n_prime ∈ l -> reachable successors start (pos n_prime)) ->
  all_reachable (foldl (astar_visit map_width goal CLOSED) OPEN l) /\
  length (foldl (astar_visit map_width goal CLOSED) OPEN l)
  + size (unseen_astar map_width P (foldl (astar_visit map_width goal CLOSED) OPEN l) CLOSED)
  <= length OPEN + size (unseen_astar map_width P OPEN CLOSED).
Proof.
  induction l as [|n_prime l IH]; intros OPEN Hall Hl;
    [split; [assumption | cbn; lia]|].
  cbn [foldl].
  destruct (astar_visit_measure OPEN CLOSED n_prime Hall) as [Hall1 Hm1].
  { apply Hl. now left. }
  destruct (IH _ Hall1) as [Hall2 Hm2].
  { intros n Hn. apply Hl. now right. }
  split; [assumption | lia].
Qed.

Lemma astar_loop_exhausts fuel : forall OPEN (CLOSED : gmap Z State) n,
  all_reachable OPEN ->
  length OPEN + size (unseen_astar map_width P OPEN CLOSED) < fuel ->
  astar_loop map_width successors fuel goal OPEN CLOSED n
  = Some (Return ((-1)%Q, 0)).
Proof.
  induction fuel as [|fuel IH]; intros OPEN CLOSED n Hall Hfuel; [lia|].
  cbn [astar_loop]. unfold astar_step.
  destruct (heapq.heappop OPEN) as [[node OPEN1]|] eqn:Hpop; [|reflexivity].
  pose proof (heapq_perm.heappop_perm _ _ _ Hpop) as Hperm.
  pose proof (heapq_perm.heappop_length _ _ _ Hpop) as Hlen.
  assert (reachable successors start (pos node)) as Hnode.
  { apply Hall. rewrite Hperm. now left. }
  rewrite (reachable_not_goal node Hnode).
  destruct (astar_visits_measure (<[hash node := node]> CLOSED)
              (successors node) OPEN1) as [Hall2 Hm2].
  { intros s Hs. apply Hall. rewrite Hperm. now right. }
  { intros n_prime Hn. now apply (reachable_successor node). }
  assert (size (unseen_astar map_width P OPEN1 (<[hash node := node]> CLOSED))
          <= size (unseen_astar map_width P OPEN CLOSED)) as Hsub.
  { apply subseteq_size. intros p. unfold unseen_astar.
    rewrite !elem_of_filter, dom_insert_L, Hperm, fmap_cons, not_elem_of_cons.
    rewrite hash_key. intros [[Hopen Hkey] HP].
    repeat split; [| assumption | set_solver | assumption].
    intros ->. apply Hkey. apply elem_of_union_l, elem_of_singleton. reflexivity. }
  apply IH; [assumption | lia].
Qed.


End Unreachable.



(** ** The grid map stamps non-decreasing g-values *)

Lemma edge_cost_nonneg (i j : Z) : (0 <= edge_cost i j)%Q.
Proof. unfold edge_cost. destruct (_ || _); discriminate. Qed.

Lemma grid_successors_g (m : gridded_map) (s s' : State) :
  s' ∈ grid_successors m s -> (_g s <= _g s')%Q.
Proof.
  unfold grid_successors. intros ([i j] & _ & Hf)%list_elem_of_omap.
  destruct (is_valid_pair m _ _); [|discriminate].
  injection Hf as <-. unfold set_g, get_g. simpl _g.
  pose proof (edge_cost_nonneg i j). lra.
Qed.

Lemma dijkstra_pops_monotone_witness :
  exists a b,
    Dijkstra_popped 6 (grid_successors wall_map) 28 (State_init 0 2) (State_init 5 4)
      !! 3 = Some a /\
    Dijkstra_popped 6 (grid_successors wall_map) 28 (State_init 0 2) (State_init 5 4)
      !! 20 = Some b /\
    (_cost a <= _cost b)%Q.
Proof.
  eexists _, _.
  split; [vm_compute; reflexivity|].
  split; [vm_compute; reflexivity|].
  apply (dijkstra_pops_monotone 6 (grid_successors wall_map)
           (State_init 0 2) (State_init 5 4) 28 (grid_successors_g wall_map)
           (Qle_refl 0) 3 20);
    [lia | vm_compute; reflexivity | vm_compute; reflexivity].
Defined.

(** * Further properties of the code *)

(** ** State: setters, equality and order *)


(** [__eq__] is an equivalence relation on states. *)
Theorem State_eq_equivalence (s t u : State) :
  State_eq s s = true /\
  State_eq s t = State_eq t s /\
  (State_eq s t = true -> State_eq t u = true -> State_eq s u = true).
Proof.
  split; [apply State_eq_refl|]. split.
  - unfold State_eq. now rewrite (Z.eqb_sym (_x s)), (Z.eqb_sym (_y s)).
  - rewrite !State_eq_spec. intros [-> ->] [-> ->]. auto.
Qed.

Lemma State_eq_equivalence_witness :
  State_eq (mkState 1 2 0 0 0) (mkState 1 2 3 0 3) = true.
Proof.
  apply (State_eq_equivalence (mkState 1 2 0 0 0) (mkState 1 2 1 0 1)
           (mkState 1 2 3 0 3)); reflexivity.
Defined.

(** [__lt__] is a strict weak order: irreflexive, transitive, and "neither
    is less" is transitive too; two states are unordered exactly when their
    costs are equal numbers. *)
Theorem State_lt_strict_weak_order (s t u : State) :
  State_lt s s = false /\
  (State_lt s t = true -> State_lt t u = true -> State_lt s u = true) /\
  (State_lt s t = false -> State_lt t u = false -> State_lt s u = false) /\
  (State_lt s t = false /\ State_lt t s = false <-> (_cost s == _cost t)%Q).
Proof.
  unfold State_lt. repeat split.
  - apply Qltb_ge, Qle_refl.
  - rewrite !Qltb_lt. apply Qlt_trans.
  - rewrite !Qltb_ge. intros H1 H2. eapply Qle_trans; eassumption.
  - intros [H1%Qltb_ge H2%Qltb_ge]. now apply Qle_antisym.
  - apply Qltb_ge. rewrite H. apply Qle_refl.
  - apply Qltb_ge. rewrite H. apply Qle_refl.
Qed.

Lemma State_lt_strict_weak_order_witness :
  State_lt (mkState 0 0 1 0 1) (mkState 5 5 3 0 3) = true.
Proof.
  apply (State_lt_strict_weak_order (mkState 0 0 1 0 1) (mkState 2 2 2 0 2)
           (mkState 5 5 3 0 3)); reflexivity.
Defined.

(** ** AStar.h_value *)


(** The exact estimate across a move to a neighbouring position: it drops
    by no more than the cost of the move. *)
Lemma h_value_consistent (goal s s' : State) :
  (Z.abs (_x s' - _x s) <= 1)%Z -> (Z.abs (_y s' - _y s) <= 1)%Z ->
  (h_value goal s
   <= edge_cost (_x s' - _x s) (_y s' - _y s) + h_value goal s')%Q.
Proof.
  intros Hx Hy. unfold h_value, edge_cost, get_x, get_y.
  destruct ((_x s' - _x s =? 0)%Z) eqn:Ex; [apply Z.eqb_eq in Ex|apply Z.eqb_neq in Ex];
    (destruct ((_y s' - _y s =? 0)%Z) eqn:Ey;
       [apply Z.eqb_eq in Ey|apply Z.eqb_neq in Ey]);
    cbn [orb]; unfold Qle, Qplus, Qmult, inject_Z; cbn [Qnum Qden];
    rewrite ?Pos.mul_1_l, ?Pos.mul_1_r, ?Z.mul_1_l, ?Z.mul_1_r; lia.
Qed.

(** While the coordinate differences to the goal stay below 2^51, the
    estimate that [AStar.h_value] returns is consistent with the costs of
    the eight moves: across a move to a neighbouring position it drops by
    no more than the cost of the move (1 along an axis, 1.5 along a
    diagonal). *)
Theorem AStar_h_value_consistent (goal s s' : State) :
  (Z.abs (_x s - _x goal) < 2 ^ 51)%Z -> (Z.abs (_y s - _y goal) < 2 ^ 51)%Z ->
  (Z.abs (_x s' - _x goal) < 2 ^ 51)%Z -> (Z.abs (_y s' - _y goal) < 2 ^ 51)%Z ->
  (Z.abs (_x s' - _x s) <= 1)%Z -> (Z.abs (_y s' - _y s) <= 1)%Z ->
  exists f f' q q',
    AStar_h_value goal s = Return f /\ binary64.value f = Some q /\
    AStar_h_value goal s' = Return f' /\ binary64.value f' = Some q' /\
    (q <= edge_cost (_x s' - _x s) (_y s' - _y s) + q')%Q.
Proof.
  intros Hx Hy Hx' Hy' Hdx Hdy.
  destruct (AStar_h_value_value goal s Hx Hy) as (f & q & Hf & Hq & Heq).
  destruct (AStar_h_value_value goal s' Hx' Hy') as (f' & q' & Hf' & Hq' & Heq').
  exists f, f', q, q'. repeat (split; [assumption|]).
  rewrite Heq, Heq'. now apply h_value_consistent.
Qed.

Lemma AStar_h_value_consistent_witness :
  exists f f' q q',
    AStar_h_value (State_init 4 4) (State_init 1 2) = Return f /\
    binary64.value f = Some q /\
    AStar_h_value (State_init 4 4) (State_init 2 3) = Return f' /\
    binary64.value f' = Some q' /\
    (q <= (3 # 2) + q')%Q.
Proof.
  apply (AStar_h_value_consistent (State_init 4 4) (State_init 1 2)
           (State_init 2 3)); vm_compute; try reflexivity; discriminate.
Defined.

(** ** heapq, as the searches call it *)

(** [heapq.heappush(OPEN, item)] on a heap: the result is a heap again and
    holds the states of OPEN and the item, each as often as before. *)
Theorem heappush_heap (OPEN : list State) (item : State) :
  heap_inv.heap_ok OPEN ->
  heap_inv.heap_ok (heapq.heappush OPEN item) /\
  heapq.heappush OPEN item ≡ₚ item :: OPEN.
Proof.
  intros Hok. split.
  - now apply heapq_order.heappush_ok.
  - apply heapq_perm.heappush_perm.
Qed.

Lemma heappush_heap_witness :
  heap_inv.heap_ok
    (heapq.heappush [mkState 0 0 1 0 1; mkState 1 0 3 0 3; mkState 0 1 2 0 2]
       (mkState 1 1 0 0 0)).
Proof.
  apply (heappush_heap [mkState 0 0 1 0 1; mkState 1 0 3 0 3; mkState 0 1 2 0 2]
           (mkState 1 1 0 0 0)).
  intros i Hi _ c p Hc Hp.
  destruct i as [|[|[|i]]]; [lia| | |discriminate];
    vm_compute in Hc, Hp; injection Hc as <-; injection Hp as <-;
    vm_compute; discriminate.
Defined.

(** [heapq.heappop(OPEN)] fails exactly on the empty list.  On a heap it
    returns a state that is not greater than any state of OPEN, and leaves
    a heap holding the other states. *)
Theorem heappop_min (OPEN : list State) :
  (heapq.heappop OPEN = None <-> OPEN = []) /\
  (heap_inv.heap_ok OPEN ->
   forall node OPEN', heapq.heappop OPEN = Some (node, OPEN') ->
     OPEN ≡ₚ node :: OPEN' /\ heap_inv.heap_ok OPEN' /\
     forall e, e ∈ OPEN -> heap_inv.le node e).
Proof.
  split; [apply heapq_perm.heappop_nil|].
  intros Hok node OPEN' Hpop.
  pose proof (heapq_perm.heappop_perm _ _ _ Hpop) as Hperm.
  destruct (heapq_order.heappop_ok _ _ _ Hok Hpop) as [Hok' Hmin].
  repeat split; [assumption | assumption |].
  intros e He. rewrite Hperm in He.
  apply elem_of_cons in He as [-> | He]; [apply heapq_order.State_le_refl|].
  now apply Hmin.
Qed.

Lemma heappop_min_witness :
  exists node OPEN',
    heapq.heappop [mkState 0 0 1 0 1; mkState 1 0 3 0 3; mkState 0 1 2 0 2]
    = Some (node, OPEN') /\
    forall e, e ∈ [mkState 0 0 1 0 1; mkState 1 0 3 0 3; mkState 0 1 2 0 2] ->
      heap_inv.le node e.
Proof.
  eexists _, _. split; [vm_compute; reflexivity|].
  refine (proj2 (proj2 (proj2
    (heappop_min [mkState 0 0 1 0 1; mkState 1 0 3 0 3; mkState 0 1 2 0 2])
    _ _ _ eq_refl))).
  intros i Hi _ c p Hc Hp.
  destruct i as [|[|[|i]]]; [lia| | |discriminate];
    vm_compute in Hc, Hp; injection Hc as <-; injection Hp as <-;
    vm_compute; discriminate.
Defined.

(** [heapq.heapify(OPEN)] turns any list into a heap holding the same
    states. *)
Theorem heapify_heap (OPEN : list State) :
  heap_inv.heap_ok (heapq.heapify OPEN) /\ heapq.heapify OPEN ≡ₚ OPEN.
Proof.
  split; [apply heapq_order.heapify_ok | apply heapq_perm.heapify_perm].
Qed.

(** ** OPEN.index *)

(** [OPEN.index(s)] finds a state exactly when OPEN holds one equal to [s],
    and then gives the first index holding such a state. *)
Theorem list_index_first (OPEN : list State) (s : State) :
  match list_index OPEN s with
  | Some i =>
      (exists e, OPEN !! i = Some e /\ State_eq e s = true) /\
      forall j e', j < i -> OPEN !! j = Some e' -> State_eq e' s = false
  | None => forall e, e ∈ OPEN -> State_eq e s = false
  end.
Proof.
  destruct (list_index OPEN s) as [i|] eqn:E.
  - destruct (list_index_Some _ _ _ E) as (e & He & Heq & Hfirst).
    split; [exists e; split; assumption | exact Hfirst].
  - now apply list_index_None.
Qed.

(** ** Dijkstra: the books of the while loop *)

Section Dijkstra_books.

Variable map_width : Z.
Variable successors : State -> list State.

Local Abbreviation hash := (state_hash map_width).

Lemma dijkstra_visit_eq OPEN (CLOSED : gmap Z Q) n_prime :
  dijkstra_visit map_width (OPEN, CLOSED) n_prime
  = match CLOSED !! hash n_prime with
    | None =>
        (heapq.heappush OPEN (set_cost n_prime (get_g n_prime)),
         <[hash n_prime := get_g n_prime]> CLOSED)
    | Some recorded =>
        if Qltb (get_g n_prime) recorded
        then (heapq.heapify OPEN, <[hash n_prime := get_g n_prime]> CLOSED)
        else (OPEN, CLOSED)
    end.
Proof. reflexivity. Qed.

(** An invariant of the loop body holds after any number of iterations. *)
Lemma dijkstra_iter_invariant (I : list State -> gmap Z Q -> nat -> Prop) goal :
  (forall OPEN CLOSED n OPEN' CLOSED' n',
     I OPEN CLOSED n ->
     dijkstra_step map_width successors goal OPEN CLOSED n
     = inr (OPEN', CLOSED', n') -> I OPEN' CLOSED' n') ->
  forall k OPEN CLOSED n OPEN' CLOSED' n',
    I OPEN CLOSED n ->
    dijkstra_iter map_width successors k goal OPEN CLOSED n
    = Some (OPEN', CLOSED', n') -> I OPEN' CLOSED' n'.
Proof.
  intros Hstep k. induction k as [|k IH]; intros OPEN CLOSED n OPEN' CLOSED' n' HI;
    cbn [dijkstra_iter].
  - now intros [= <- <- <-].
  - destruct (dijkstra_step _ _ _ _ _ _) as [r|[[O1 C1] n1]] eqn:E; [discriminate|].
    apply IH. eapply Hstep; eassumption.
Qed.

(** A run that returns does so at some iteration. *)
Lemma dijkstra_loop_returns goal fuel : forall OPEN CLOSED n r,
  dijkstra_loop map_width successors fuel goal OPEN CLOSED n = Some r ->
  exists k OPEN' CLOSED' n',
    k < fuel /\
    dijkstra_iter map_width successors k goal OPEN CLOSED n
    = Some (OPEN', CLOSED', n') /\
    dijkstra_step map_width successors goal OPEN' CLOSED' n' = inl r.
Proof.
  induction fuel as [|fuel IH]; intros OPEN CLOSED n r; cbn [dijkstra_loop];
    [discriminate|].
  destruct (dijkstra_step _ _ _ _ _ _) as [r'|[[O1 C1] n1]] eqn:E.
  - intros [= ->]. exists 0, OPEN, CLOSED, n. repeat split; [lia | assumption].
  - intros H. apply IH in H as (k & O2 & C2 & n2 & Hk & Hiter & Hstep).
    exists (S k), O2, C2, n2. repeat split; [lia | | assumption].
    cbn [dijkstra_iter]. now rewrite E.
Qed.

Lemma dijkstra_visit_books OPEN CLOSED n n_prime :
  dijkstra_books map_width OPEN CLOSED n ->
  dijkstra_books map_width (dijkstra_visit map_width (OPEN, CLOSED) n_prime).1
    (dijkstra_visit map_width (OPEN, CLOSED) n_prime).2 n.
Proof.
  intros (Hnd & Hsize & Hbelow). rewrite dijkstra_visit_eq.
  destruct (CLOSED !! hash n_prime) as [recorded|] eqn:Hrec.
  - destruct (Qltb (get_g n_prime) recorded) eqn:Hlt;
      [|repeat split; assumption].
    apply Qltb_lt in Hlt. cbn [fst snd]. split; [|split].
    + now rewrite heapq_perm.heapify_perm.
    + rewrite heapq_perm.heapify_length, map_size_insert_Some by eauto.
      assumption.
    + intros s Hs. rewrite heapq_perm.heapify_perm in Hs.
      destruct (Hbelow s Hs) as (c & Hc & Hle).
      destruct (decide (hash n_prime = hash s)) as [E|E].
      * exists (get_g n_prime). rewrite E, lookup_insert_eq. split; [reflexivity|].
        rewrite E, Hc in Hrec. injection Hrec as <-.
        apply Qlt_le_weak. eapply Qlt_le_trans; eassumption.
      * exists c. rewrite lookup_insert_ne by assumption. auto.
  - cbn [fst snd]. split; [|split].
    + rewrite heapq_perm.heappush_perm, fmap_cons. apply NoDup_cons.
      split; [|assumption]. intros Hin.
      apply list_elem_of_fmap in Hin as (s & Hs & Hin).
      destruct (Hbelow s Hin) as (c & Hc & _).
      change (hash n_prime = hash s) in Hs. rewrite Hs in Hrec. congruence.
    + rewrite heapq_perm.heappush_length, map_size_insert_None by assumption.
      lia.
    + intros s Hs. rewrite heapq_perm.heappush_perm in Hs.
      apply elem_of_cons in Hs as [-> | Hs].
      * exists (get_g n_prime).
        change (hash (set_cost n_prime (get_g n_prime))) with (hash n_prime).
        rewrite lookup_insert_eq. split; [reflexivity | apply Qle_refl].
      * destruct (Hbelow s Hs) as (c & Hc & Hle). exists c.
        rewrite lookup_insert_ne; [auto|]. intros E. rewrite E in Hrec. congruence.
Qed.

Lemma dijkstra_visits_books n l : forall OPEN CLOSED,
  dijkstra_books map_width OPEN CLOSED n ->
  dijkstra_books map_width (foldl (dijkstra_visit map_width) (OPEN, CLOSED) l).1
    (foldl (dijkstra_visit map_width) (OPEN, CLOSED) l).2 n.
Proof.
  induction l as [|n_prime l IH]; intros OPEN CLOSED Hinv; [exact Hinv|].
  cbn [foldl].
  destruct (dijkstra_visit map_width (OPEN, CLOSED) n_prime) as [O1 C1] eqn:E.
  apply IH. pose proof (dijkstra_visit_books OPEN CLOSED n n_prime Hinv) as H.
  now rewrite E in H.
Qed.

Lemma dijkstra_step_books goal OPEN CLOSED n OPEN' CLOSED' n' :
  dijkstra_books map_width OPEN CLOSED n ->
  dijkstra_step map_width successors goal OPEN CLOSED n = inr (OPEN', CLOSED', n') ->
  dijkstra_books map_width OPEN' CLOSED' n'.
Proof.
  intros (Hnd & Hsize & Hbelow). unfold dijkstra_step.
  destruct (heapq.heappop OPEN) as [[node OPEN1]|] eqn:Hpop; [|discriminate].
  destruct (State_eq node goal).
  { destruct (CLOSED !! hash node); discriminate. }
  destruct (foldl _ _ _) as [O2 C2] eqn:E. intros [= <- <- <-].
  pose proof (heapq_perm.heappop_perm _ _ _ Hpop) as Hperm.
  assert (dijkstra_books map_width OPEN1 CLOSED (n + 1)) as Hinv1.
  { rewrite Hperm in Hnd, Hsize. rewrite fmap_cons in Hnd.
    apply NoDup_cons in Hnd as [_ Hnd]. cbn [length] in Hsize.
    split; [assumption|]. split; [lia|].
    intros s Hs. apply Hbelow. rewrite Hperm. now right. }
  pose proof (dijkstra_visits_books (n + 1) (successors node) OPEN1 CLOSED Hinv1) as H.
  now rewrite E in H.
Qed.

Lemma dijkstra_books_init start :
  dijkstra_books map_width (heapq.heappush [] start)
    (<[hash start := get_cost start]> ∅) 0.
Proof.
  rewrite heappush_nil. split; [|split].
  - apply NoDup_singleton.
  - now rewrite map_size_insert_None, map_size_empty by apply lookup_empty.
  - intros s Hs. apply list_elem_of_singleton in Hs as ->.
    exists (get_cost start). rewrite lookup_insert_eq. split; [reflexivity|].
    apply Qle_refl.
Qed.

Lemma dijkstra_after_books k start goal OPEN CLOSED n :
  Dijkstra_after map_width successors k start goal = Some (OPEN, CLOSED, n) ->
  dijkstra_books map_width OPEN CLOSED n /\ n = k.
Proof.
  intros Hafter. split.
  - eapply (dijkstra_iter_invariant (dijkstra_books map_width));
      [apply dijkstra_step_books | apply dijkstra_books_init | exact Hafter].
  - now destruct (dijkstra_iter_keys map_width successors goal k _ _ _ _ _ _
                    (keys_recorded_init map_width start) Hafter) as [_ ->].
Qed.

End Dijkstra_books.

(** At every iteration of [Dijkstra.search] no two states of OPEN share a
    key, and the states expanded so far together with those in OPEN are as
    many as the keys of CLOSED: a key enters OPEN once, when it enters
    CLOSED, and never again. *)
Theorem dijkstra_open_once (map_width : Z) (successors : State -> list State)
    (start goal : State) (k : nat) (OPEN : list State) (CLOSED : gmap Z Q)
    (n : nat) :
  Dijkstra_after map_width successors k start goal = Some (OPEN, CLOSED, n) ->
  n = k /\ NoDup (state_hash map_width <$> OPEN) /\
  k + length OPEN = size CLOSED.
Proof.
  intros Hafter.
  apply dijkstra_after_books in Hafter as [(Hnd & Hsize & _) ->]. auto.
Qed.

Lemma dijkstra_open_once_witness :
  exists OPEN CLOSED,
    Dijkstra_after 6 (grid_successors wall_map) 9 (State_init 0 2) (State_init 5 4)
    = Some (OPEN, CLOSED, 9) /\
    9 + length OPEN = size CLOSED.
Proof.
  let v := eval vm_compute in
    (Dijkstra_after 6 (grid_successors wall_map) 9 (State_init 0 2) (State_init 5 4)) in
  match v with
  | Some (?OP, ?CL, ?n) =>
      exists OP, CL;
      assert (Dijkstra_after 6 (grid_successors wall_map) 9 (State_init 0 2)
                (State_init 5 4) = Some (OP, CL, n)) as H
        by (vm_compute; reflexivity);
      split; [exact H|];
      exact (proj2 (proj2 (dijkstra_open_once 6 (grid_successors wall_map)
                             (State_init 0 2) (State_init 5 4) 9 OP CL n H)))
  end.
Defined.

(** When [Dijkstra.search] pops a state equal to the goal, the cost it
    returns is not above the cost of the popped state. *)
Theorem dijkstra_return_below_popped (map_width : Z)
    (successors : State -> list State) (start goal : State) (k fuel : nat)
    (OPEN : list State) (CLOSED : gmap Z Q) (n : nat) (node : State)
    (OPEN1 : list State) :
  Dijkstra_after map_width successors k start goal = Some (OPEN, CLOSED, n) ->
  heapq.heappop OPEN = Some (node, OPEN1) ->
  State_eq node goal = true ->
  exists c,
    Dijkstra_search map_width successors (k + S fuel) start goal
    = Some (Return (c, k + 1)) /\ (c <= _cost node)%Q.
Proof.
  intros Hafter Hpop Heq.
  pose proof (dijkstra_after_books _ _ _ _ _ _ _ _ Hafter) as [(_ & _ & Hbelow) ->].
  assert (node ∈ OPEN) as Hin.
  { rewrite (heapq_perm.heappop_perm _ _ _ Hpop). now left. }
  destruct (Hbelow node Hin) as (c & Hc & Hle).
  exists c. split; [|assumption].
  unfold Dijkstra_search. unfold Dijkstra_after in Hafter.
  rewrite (dijkstra_loop_iter map_width successors goal k (S fuel) _ _ _ _ _ _ Hafter).
  cbn [dijkstra_loop]. unfold dijkstra_step. now rewrite Hpop, Heq, Hc.
Qed.

Lemma dijkstra_return_below_popped_witness :
  exists c node,
    Dijkstra_search 6 (grid_successors wall_map) 26 (State_init 0 2) (State_init 4 4)
    = Some (Return (c, 26)) /\ (c <= _cost node)%Q.
Proof.
  let v := eval vm_compute in
    (Dijkstra_after 6 (grid_successors wall_map) 25 (State_init 0 2) (State_init 4 4)) in
  match v with
  | Some (?OP, ?CL, ?n) =>
      let p := eval vm_compute in (heapq.heappop OP) in
      match p with
      | Some (?node, ?OP1) =>
          destruct (dijkstra_return_below_popped 6 (grid_successors wall_map)
                      (State_init 0 2) (State_init 4 4) 25 0 OP CL n node OP1)
            as (c & Hs & Hle);
          [ vm_compute; reflexivity | vm_compute; reflexivity | reflexivity
          | exists c, node; split; [exact Hs | exact Hle] ]
      end
  end.
Defined.

(** ** Dijkstra: CLOSED keeps its keys and its values only go down *)

Section Dijkstra_closed.

Variable map_width : Z.
Variable successors : State -> list State.

Lemma closed_lowered_refl CLOSED : closed_lowered CLOSED CLOSED.
Proof. intros k c Hc. exists c. split; [assumption | apply Qle_refl]. Qed.

Lemma closed_lowered_trans C1 C2 C3 :
  closed_lowered C1 C2 -> closed_lowered C2 C3 -> closed_lowered C1 C3.
Proof.
  intros H12 H23 k c Hc. destruct (H12 k c Hc) as (c' & Hc' & Hle).
  destruct (H23 k c' Hc') as (c'' & Hc'' & Hle'). exists c''.
  split; [assumption | eapply Qle_trans; eassumption].
Qed.

Lemma dijkstra_visit_lowers OPEN CLOSED n_prime :
  closed_lowered CLOSED (dijkstra_visit map_width (OPEN, CLOSED) n_prime).2.
Proof.
  rewrite dijkstra_visit_eq.
  destruct (CLOSED !! state_hash map_width n_prime) as [recorded|] eqn:Hrec.
  - destruct (Qltb (get_g n_prime) recorded) eqn:Hlt;
      [|apply closed_lowered_refl].
    apply Qltb_lt in Hlt. cbn [snd]. intros k c Hc.
    destruct (decide (state_hash map_width n_prime = k)) as [<-|E].
    + exists (get_g n_prime). rewrite lookup_insert_eq. split; [reflexivity|].
      rewrite Hrec in Hc. injection Hc as <-. now apply Qlt_le_weak.
    + exists c. rewrite lookup_insert_ne by assumption.
      split; [assumption | apply Qle_refl].
  - cbn [snd]. intros k c Hc. exists c.
    rewrite lookup_insert_ne; [split; [assumption | apply Qle_refl]|].
    intros <-. rewrite Hrec in Hc. discriminate.
Qed.

Lemma dijkstra_visits_lowers l : forall OPEN CLOSED,
  closed_lowered CLOSED (foldl (dijkstra_visit map_width) (OPEN, CLOSED) l).2.
Proof.
  induction l as [|n_prime l IH]; intros OPEN CLOSED;
    [apply closed_lowered_refl|].
  cbn [foldl].
  pose proof (dijkstra_visit_lowers OPEN CLOSED n_prime) as H.
  destruct (dijkstra_visit map_width (OPEN, CLOSED) n_prime) as [O1 C1].
  eapply closed_lowered_trans; [exact H | apply IH].
Qed.

Lemma dijkstra_step_lowers goal OPEN CLOSED n OPEN' CLOSED' n' :
  dijkstra_step map_width successors goal OPEN CLOSED n = inr (OPEN', CLOSED', n') ->
  closed_lowered CLOSED CLOSED'.
Proof.
  unfold dijkstra_step.
  destruct (heapq.heappop OPEN) as [[node OPEN1]|]; [|discriminate].
  destruct (State_eq node goal).
  { destruct (CLOSED !! state_hash map_width node); discriminate. }
  pose proof (dijkstra_visits_lowers (successors node) OPEN1 CLOSED) as H.
  destruct (foldl _ _ _) as [O2 C2]. now intros [= <- <- <-].
Qed.

End Dijkstra_closed.

(** Over any number of iterations of [Dijkstra.search], CLOSED loses no key
    and no recorded value goes up. *)
Theorem dijkstra_closed_never_rises (map_width : Z)
    (successors : State -> list State) (goal : State) (k : nat)
    (OPEN : list State) (CLOSED : gmap Z Q) (n : nat)
    (OPEN' : list State) (CLOSED' : gmap Z Q) (n' : nat) :
  dijkstra_iter map_width successors k goal OPEN CLOSED n
  = Some (OPEN', CLOSED', n') ->
  closed_lowered CLOSED CLOSED'.
Proof.
  revert OPEN CLOSED n. induction k as [|k IH]; intros OPEN CLOSED n;
    cbn [dijkstra_iter].
  - intros [= <- <- <-]. apply closed_lowered_refl.
  - destruct (dijkstra_step _ _ _ _ _ _) as [r|[[O1 C1] n1]] eqn:E; [discriminate|].
    intros H. eapply closed_lowered_trans;
      [eapply dijkstra_step_lowers; exact E | eapply IH; exact H].
Qed.

Lemma dijkstra_closed_never_rises_witness :
  exists OPEN' CLOSED' n',
    Dijkstra_after 6 (grid_successors wall_map) 25 (State_init 0 2)
      (State_init 4 4) = Some (OPEN', CLOSED', n') /\
    closed_lowered (<[state_hash 6 (State_init 0 2) := 0%Q]> ∅) CLOSED'.
Proof.
  let v := eval vm_compute in
    (Dijkstra_after 6 (grid_successors wall_map) 25 (State_init 0 2) (State_init 4 4)) in
  match v with
  | Some (?OP, ?CL, ?n) =>
      exists OP, CL, n; split; [vm_compute; reflexivity|];
      apply (dijkstra_closed_never_rises 6 (grid_successors wall_map)
               (State_init 4 4) 25 (heapq.heappush [] (State_init 0 2))
               (<[state_hash 6 (State_init 0 2) := 0%Q]> ∅) 0 OP CL n);
      vm_compute; reflexivity
  end.
Defined.

(** [Dijkstra.search] never raises: the lookup of the popped goal in CLOSED
    cannot fail.  It returns either (-1, 0), or a cost with an expansion
    count between 1 and the number of iterations run. *)
Theorem dijkstra_never_raises (map_width : Z) (successors : State -> list State)
    (fuel : nat) (start goal : State) :
  match Dijkstra_search map_width successors fuel start goal with
  | Some (Raise _) => False
  | Some (Return (c, n)) => (c = (-1)%Q /\ n = 0) \/ 1 <= n <= fuel
  | None => True
  end.
Proof.
  destruct (Dijkstra_search map_width successors fuel start goal) as [r|] eqn:E;
    [|exact I].
  unfold Dijkstra_search in E.
  apply dijkstra_loop_returns in E as (k & O1 & C1 & n1 & Hk & Hiter & Hstep).
  destruct (dijkstra_iter_keys map_width successors goal k _ _ _ _ _ _
              (keys_recorded_init map_width start) Hiter) as [Hkeys ->].
  revert Hstep. unfold dijkstra_step.
  destruct (heapq.heappop O1) as [[node O2]|] eqn:Hpop.
  - destruct (State_eq node goal).
    + assert (node ∈ O1) as Hin.
      { rewrite (heapq_perm.heappop_perm _ _ _ Hpop). now left. }
      destruct (Hkeys node Hin) as [c Hc]. rewrite Hc. intros [= <-].
      right. lia.
    + destruct (foldl _ _ _). discriminate.
  - intros [= <-]. now left.
Qed.

(** ** Dijkstra: the returned cost belongs to a generated state *)

Section Dijkstra_sound.

Variable map_width : Z.
Variable successors : State -> list State.
Variable start : State.

Local Abbreviation sound := (dijkstra_sound map_width successors start).

Lemma dijkstra_visit_sound node OPEN CLOSED n_prime :
  generated successors start node -> n_prime ∈ successors node ->
  sound OPEN CLOSED ->
  sound (dijkstra_visit map_width (OPEN, CLOSED) n_prime).1
        (dijkstra_visit map_width (OPEN, CLOSED) n_prime).2.
Proof.
  intros Hnode Hin [Hopen Hclosed]. rewrite dijkstra_visit_eq.
  assert (generated successors start (set_cost n_prime (get_g n_prime))) as Hgen
    by (eapply generated_succ; eassumption).
  assert (forall k c,
            <[state_hash map_width n_prime := get_g n_prime]> CLOSED !! k = Some c ->
            exists s, generated successors start s /\
              state_hash map_width s = k /\ c = _cost s) as Hins.
  { intros k c. destruct (decide (state_hash map_width n_prime = k)) as [<-|E].
    - rewrite lookup_insert_eq. intros [= <-].
      exists (set_cost n_prime (get_g n_prime)). auto.
    - rewrite lookup_insert_ne by assumption. apply Hclosed. }
  destruct (CLOSED !! state_hash map_width n_prime) as [recorded|].
  - destruct (Qltb (get_g n_prime) recorded); [|split; assumption].
    cbn [fst snd]. split; [|exact Hins].
    intros e He. rewrite heapq_perm.heapify_perm in He. now apply Hopen.
  - cbn [fst snd]. split; [|exact Hins].
    intros e He. rewrite heapq_perm.heappush_perm in He.
    apply elem_of_cons in He as [-> | He]; [assumption | now apply Hopen].
Qed.

Lemma dijkstra_visits_sound node l : forall OPEN CLOSED,
  generated successors start node -> (forall x, x ∈ l -> x ∈ successors node) ->
  sound OPEN CLOSED ->
  sound (foldl (dijkstra_visit map_width) (OPEN, CLOSED) l).1
        (foldl (dijkstra_visit map_width) (OPEN, CLOSED) l).2.
Proof.
  induction l as [|n_prime l IH]; intros OPEN CLOSED Hnode Hl Hinv; [exact Hinv|].
  cbn [foldl].
  pose proof (dijkstra_visit_sound node OPEN CLOSED n_prime Hnode
                (Hl _ ltac:(now left)) Hinv) as H.
  destruct (dijkstra_visit map_width (OPEN, CLOSED) n_prime) as [O1 C1].
  apply IH; [assumption | | exact H]. intros x Hx. apply Hl. now right.
Qed.

Lemma dijkstra_step_sound goal OPEN CLOSED n OPEN' CLOSED' n' :
  sound OPEN CLOSED ->
  dijkstra_step map_width successors goal OPEN CLOSED n = inr (OPEN', CLOSED', n') ->
  sound OPEN' CLOSED'.
Proof.
  intros [Hopen Hclosed]. unfold dijkstra_step.
  destruct (heapq.heappop OPEN) as [[node OPEN1]|] eqn:Hpop; [|discriminate].
  destruct (State_eq node goal).
  { destruct (CLOSED !! state_hash map_width node); discriminate. }
  pose proof (heapq_perm.heappop_perm _ _ _ Hpop) as Hperm.
  assert (generated successors start node) as Hnode.
  { apply Hopen. rewrite Hperm. now left. }
  assert (sound OPEN1 CLOSED) as Hinv1.
  { split; [|assumption]. intros e He. apply Hopen. rewrite Hperm. now right. }
  pose proof (dijkstra_visits_sound node (successors node) OPEN1 CLOSED Hnode
                ltac:(auto) Hinv1) as H.
  destruct (foldl _ _ _) as [O2 C2]. now intros [= <- <- <-].
Qed.

Lemma dijkstra_sound_init :
  sound (heapq.heappush [] start)
    (<[state_hash map_width start := get_cost start]> ∅).
Proof.
  rewrite heappush_nil. split.
  - intros e He. apply list_elem_of_singleton in He as ->. apply generated_start.
  - intros k c. destruct (decide (state_hash map_width start = k)) as [<-|E].
    + rewrite lookup_insert_eq. intros [= <-]. exists start.
      split; [apply generated_start | auto].
    + rewrite lookup_insert_ne by assumption. rewrite lookup_empty. discriminate.
Qed.

End Dijkstra_sound.

(** A cost returned by [Dijkstra.search] after a pop of the goal is the
    cost of a generated state with the goal's key: the start itself, or a
    successor, along a chain of successors from the start, carrying the
    g-value that the map gave it. *)
Theorem dijkstra_result_generated (map_width : Z)
    (successors : State -> list State) (fuel : nat) (start goal : State)
    (c : Q) (n : nat) :
  Dijkstra_search map_width successors fuel start goal = Some (Return (c, n)) ->
  1 <= n ->
  exists s, generated successors start s /\
    state_hash map_width s = state_hash map_width goal /\ c = _cost s.
Proof.
  intros E Hn. unfold Dijkstra_search in E.
  apply dijkstra_loop_returns in E as (k & O1 & C1 & n1 & Hk & Hiter & Hstep).
  assert (dijkstra_sound map_width successors start O1 C1) as [_ Hclosed].
  { eapply (dijkstra_iter_invariant map_width successors
              (fun OPEN CLOSED _ => dijkstra_sound map_width successors start OPEN CLOSED));
      [|apply dijkstra_sound_init | exact Hiter].
    intros OPEN CLOSED m OPEN' CLOSED' m'. apply dijkstra_step_sound. }
  revert Hstep. unfold dijkstra_step.
  destruct (heapq.heappop O1) as [[node O2]|] eqn:Hpop.
  - destruct (State_eq node goal) eqn:Heq.
    + destruct (C1 !! state_hash map_width node) as [c'|] eqn:Hc; [|discriminate].
      intros [= -> <-]. destruct (Hclosed _ _ Hc) as (s & Hs & Hkey & ->).
      exists s. split; [assumption|]. split; [|reflexivity].
      rewrite Hkey. apply State_eq_spec in Heq as [Hx Hy].
      unfold state_hash. now rewrite Hx, Hy.
    + destruct (foldl _ _ _). discriminate.
  - intros [= <- <-]. lia.
Qed.

Lemma dijkstra_result_generated_witness :
  exists s, generated (grid_successors wall_map) (State_init 0 2) s /\
    state_hash 6 s = state_hash 6 (State_init 5 4) /\ (_cost s == 7)%Q.
Proof.
  let v := eval vm_compute in
    (Dijkstra_search 6 (grid_successors wall_map) 28 (State_init 0 2)
       (State_init 5 4)) in
  match v with
  | Some (Return (?c, ?n)) =>
      destruct (dijkstra_result_generated 6 (grid_successors wall_map) 28
                  (State_init 0 2) (State_init 5 4) c n)
        as (s & Hs & Hk & Hc);
      [ vm_compute; reflexivity | lia
      | exists s; split; [exact Hs|]; split; [exact Hk|];
        rewrite <- Hc; reflexivity ]
  end.
Defined.

(** ** A*: the books of the while loop *)

Section AStar_books.

Variable map_width : Z.
Variable successors : State -> list State.

Local Abbreviation hash := (state_hash map_width).

Lemma astar_iter_invariant (I : list State -> gmap Z State -> nat -> Prop) goal :
  (forall OPEN CLOSED n OPEN' CLOSED' n',
     I OPEN CLOSED n ->
     astar_step map_width successors goal OPEN CLOSED n
     = inr (OPEN', CLOSED', n') -> I OPEN' CLOSED' n') ->
  forall k OPEN CLOSED n OPEN' CLOSED' n',
    I OPEN CLOSED n ->
    astar_iter map_width successors k goal OPEN CLOSED n
    = Some (OPEN', CLOSED', n') -> I OPEN' CLOSED' n'.
Proof.
  intros Hstep k. induction k as [|k IH]; intros OPEN CLOSED n OPEN' CLOSED' n' HI;
    cbn [astar_iter].
  - now intros [= <- <- <-].
  - destruct (astar_step _ _ _ _ _ _) as [r|[[O1 C1] n1]] eqn:E; [discriminate|].
    apply IH. eapply Hstep; eassumption.
Qed.

Lemma astar_loop_iter goal k : forall fuel OPEN CLOSED n OPEN' CLOSED' n',
  astar_iter map_width successors k goal OPEN CLOSED n = Some (OPEN', CLOSED', n') ->
  astar_loop map_width successors (k + fuel) goal OPEN CLOSED n
  = astar_loop map_width successors fuel goal OPEN' CLOSED' n'.
Proof.
  induction k as [|k IH]; intros fuel OPEN CLOSED n OPEN' CLOSED' n';
    cbn [astar_iter].
  - now intros [= <- <- <-].
  - cbn [Nat.add astar_loop].
    destruct (astar_step _ _ _ _ _ _) as [r|[[O1 C1] n1]]; [discriminate|].
    apply IH.
Qed.

Lemma astar_step_inr goal OPEN CLOSED n OPEN' CLOSED' n' :
  astar_step map_width successors goal OPEN CLOSED n = inr (OPEN', CLOSED', n') ->
  exists node OPEN1,
    heapq.heappop OPEN = Some (node, OPEN1) /\ State_eq node goal = false /\
    CLOSED' = <[hash node := node]> CLOSED /\
    OPEN' = foldl (astar_visit map_width goal CLOSED') OPEN1 (successors node) /\
    n' = n + 1.
Proof.
  unfold astar_step.
  destruct (heapq.heappop OPEN) as [[node OPEN1]|]; [|discriminate].
  destruct (State_eq node goal) eqn:Heq; [discriminate|].
  intros [= <- <- <-]. exists node, OPEN1. auto.
Qed.

Lemma astar_iter_count goal k : forall OPEN CLOSED n OPEN' CLOSED' n',
  astar_iter map_width successors k goal OPEN CLOSED n = Some (OPEN', CLOSED', n') ->
  n' = n + k.
Proof.
  induction k as [|k IH]; intros OPEN CLOSED n OPEN' CLOSED' n'; cbn [astar_iter].
  - intros [= <- <- <-]. lia.
  - destruct (astar_step _ _ _ _ _ _) as [r|[[O1 C1] n1]] eqn:E; [discriminate|].
    apply astar_step_inr in E as (_ & _ & _ & _ & _ & _ & ->).
    intros H. apply IH in H. lia.
Qed.

Lemma list_insert_elem_of (l : list State) i x y :
  y ∈ <[i := x]> l -> y = x \/ y ∈ l.
Proof.
  intros (j & Hj)%list_elem_of_lookup.
  apply list_lookup_insert_Some in Hj as [(_ & -> & _) | (_ & Hj)];
    [now left | right; eapply list_elem_of_lookup_2; exact Hj].
Qed.

Lemma astar_visit_nodup goal (CLOSED : gmap Z State) OPEN n_prime :
  NoDup (pos <$> OPEN) ->
  NoDup (pos <$> astar_visit map_width goal CLOSED OPEN n_prime).
Proof.
  intros Hnd. unfold astar_visit.
  destruct (CLOSED !! hash n_prime); [assumption|].
  destruct (list_index OPEN n_prime) as [i|] eqn:Hidx.
  - destruct (OPEN !! i) as [e|] eqn:He; [|assumption].
    destruct (Qltb (get_g n_prime) (get_g e)); [|assumption].
    rewrite heapq_perm.heapify_perm, list_fmap_insert.
    rewrite list_insert_id; [assumption|].
    rewrite list_lookup_fmap, He. reflexivity.
  - rewrite heapq_perm.heappush_perm, fmap_cons. apply NoDup_cons.
    split; [|assumption]. intros (e & Hpos & Hin)%list_elem_of_fmap.
    pose proof (list_index_None _ _ Hidx e Hin) as Hne.
    assert (State_eq e n_prime = true) as Heq; [|congruence].
    apply State_eq_pos. symmetry. exact Hpos.
Qed.

Lemma astar_visit_cost goal (CLOSED : gmap Z State) OPEN n_prime :
  cost_is_f goal OPEN ->
  cost_is_f goal (astar_visit map_width goal CLOSED OPEN n_prime).
Proof.
  intros Hcost. unfold astar_visit.
  destruct (CLOSED !! hash n_prime); [assumption|].
  destruct (list_index OPEN n_prime) as [i|] eqn:Hidx.
  - destruct (OPEN !! i) as [e|] eqn:He; [|assumption].
    destruct (Qltb (get_g n_prime) (get_g e)); [|assumption].
    intros e' He'. rewrite heapq_perm.heapify_perm in He'.
    apply list_insert_elem_of in He' as [-> | He']; [|now apply Hcost].
    apply Qeq_refl.
  - intros e' He'. rewrite heapq_perm.heappush_perm in He'.
    apply elem_of_cons in He' as [-> | He']; [|now apply Hcost].
    apply Qeq_refl.
Qed.

Lemma astar_visits_nodup goal (CLOSED : gmap Z State) l : forall OPEN,
  NoDup (pos <$> OPEN) ->
  NoDup (pos <$> foldl (astar_visit map_width goal CLOSED) OPEN l).
Proof.
  induction l as [|n_prime l IH]; intros OPEN Hnd; [exact Hnd|].
  cbn [foldl]. apply IH. now apply astar_visit_nodup.
Qed.

Lemma astar_visits_cost goal (CLOSED : gmap Z State) l : forall OPEN,
  cost_is_f goal OPEN ->
  cost_is_f goal (foldl (astar_visit map_width goal CLOSED) OPEN l).
Proof.
  induction l as [|n_prime l IH]; intros OPEN Hc; [exact Hc|].
  cbn [foldl]. apply IH. now apply astar_visit_cost.
Qed.

Lemma astar_step_nodup goal OPEN CLOSED n OPEN' CLOSED' n' :
  NoDup (pos <$> OPEN) ->
  astar_step map_width successors goal OPEN CLOSED n = inr (OPEN', CLOSED', n') ->
  NoDup (pos <$> OPEN').
Proof.
  intros Hnd (node & OPEN1 & Hpop & _ & _ & -> & _)%astar_step_inr.
  apply astar_visits_nodup.
  rewrite (heapq_perm.heappop_perm _ _ _ Hpop), fmap_cons in Hnd.
  now apply NoDup_cons in Hnd as [_ Hnd].
Qed.

Lemma astar_step_cost goal OPEN CLOSED n OPEN' CLOSED' n' :
  (forall node OPEN1, heapq.heappop OPEN = Some (node, OPEN1) ->
     cost_is_f goal OPEN1) ->
  astar_step map_width successors goal OPEN CLOSED n = inr (OPEN', CLOSED', n') ->
  cost_is_f goal OPEN'.
Proof.
  intros Hc (node & OPEN1 & Hpop & _ & _ & -> & _)%astar_step_inr.
  apply astar_visits_cost. eapply Hc. exact Hpop.
Qed.

Lemma astar_after_cost k start goal OPEN CLOSED n :
  AStar_after map_width successors k start goal = Some (OPEN, CLOSED, n) ->
  1 <= k -> cost_is_f goal OPEN.
Proof.
  intros Hafter Hk. destruct k as [|k]; [lia|].
  unfold AStar_after in Hafter. cbn [astar_iter] in Hafter.
  destruct (astar_step _ _ _ _ _ _) as [r|[[O1 C1] n1]] eqn:E; [discriminate|].
  assert (cost_is_f goal O1) as H1.
  { eapply astar_step_cost; [|exact E]. rewrite heappush_nil, heappop_singleton.
    intros node OPEN1 [= <- <-] e He. inversion He. }
  eapply (astar_iter_invariant (fun O _ _ => cost_is_f goal O));
    [|exact H1 | exact Hafter].
  intros OP CL m OP' CL' m' HI. apply astar_step_cost.
  intros node OPEN1 Hpop e He. apply HI.
  rewrite (heapq_perm.heappop_perm _ _ _ Hpop). now right.
Qed.

Lemma h_value_at_goal goal s : State_eq s goal = true -> (h_value goal s == 0)%Q.
Proof.
  intros [Hx Hy]%State_eq_spec. unfold h_value, get_x, get_y.
  rewrite Hx, Hy, !Z.sub_diag. reflexivity.
Qed.

End AStar_books.

(** At every iteration of [AStar.search] no two states of OPEN are at the
    same position: a successor that is already in OPEN updates the state
    there and is not pushed beside it. *)
Theorem astar_open_positions_distinct (map_width : Z)
    (successors : State -> list State) (start goal : State) (k : nat)
    (OPEN : list State) (CLOSED : gmap Z State) (n : nat) :
  AStar_after map_width successors k start goal = Some (OPEN, CLOSED, n) ->
  n = k /\ NoDup (pos <$> OPEN).
Proof.
  intros Hafter. split.
  - apply astar_iter_count in Hafter. lia.
  - assert (NoDup (pos <$> heapq.heappush [] start)) as Hinit
      by (rewrite heappush_nil; apply NoDup_singleton).
    eapply (astar_iter_invariant map_width successors
              (fun O _ _ => NoDup (pos <$> O)));
      [|exact Hinit | exact Hafter].
    intros OP CL m OP' CL' m'. apply astar_step_nodup.
Qed.

Lemma astar_open_positions_distinct_witness :
  exists OPEN CLOSED,
    AStar_after 6 (grid_successors wall_map) 5 (State_init 0 2) (State_init 5 4)
    = Some (OPEN, CLOSED, 5) /\
    NoDup (pos <$> OPEN).
Proof.
  let v := eval vm_compute in
    (AStar_after 6 (grid_successors wall_map) 5 (State_init 0 2) (State_init 5 4)) in
  match v with
  | Some (?OP, ?CL, ?n) =>
      exists OP, CL;
      assert (AStar_after 6 (grid_successors wall_map) 5 (State_init 0 2)
                (State_init 5 4) = Some (OP, CL, n)) as H
        by (vm_compute; reflexivity);
      split; [exact H|];
      exact (proj2 (astar_open_positions_distinct 6 (grid_successors wall_map)
                      (State_init 0 2) (State_init 5 4) 5 OP CL n H))
  end.
Defined.

(** When [AStar.search] pops a state equal to the goal after the first
    iteration, it returns the cost field of that state with the count of
    pops, and this cost is the g-value of the state: the estimate adds
    nothing at the goal. *)
Theorem astar_returns_g (map_width : Z) (successors : State -> list State)
    (start goal : State) (k fuel : nat) (OPEN : list State)
    (CLOSED : gmap Z State) (n : nat) (node : State) (OPEN1 : list State) :
  AStar_after map_width successors k start goal = Some (OPEN, CLOSED, n) ->
  1 <= k ->
  heapq.heappop OPEN = Some (node, OPEN1) ->
  State_eq node goal = true ->
  AStar_search map_width successors (k + S fuel) start goal
  = Some (Return (_cost node, k + 1)) /\
  (_cost node == _g node)%Q.
Proof.
  intros Hafter Hk Hpop Heq. split.
  - pose proof (astar_iter_count _ _ _ _ _ _ _ _ _ _ Hafter) as ->.
    unfold AStar_search. unfold AStar_after in Hafter.
    rewrite (astar_loop_iter map_width successors goal k (S fuel) _ _ _ _ _ _ Hafter).
    cbn [astar_loop]. unfold astar_step. now rewrite Hpop, Heq.
  - pose proof (astar_after_cost _ _ _ _ _ _ _ _ Hafter Hk) as Hcost.
    rewrite (Hcost node), (h_value_at_goal goal node Heq); [lra|].
    rewrite (heapq_perm.heappop_perm _ _ _ Hpop). now left.
Qed.

Lemma astar_returns_g_witness :
  exists node,
    AStar_search 6 (grid_successors wall_map) 7 (State_init 0 2) (State_init 5 4)
    = Some (Return (_cost node, 7)) /\
    (_cost node == _g node)%Q.
Proof.
  let v := eval vm_compute in
    (AStar_after 6 (grid_successors wall_map) 6 (State_init 0 2) (State_init 5 4)) in
  match v with
  | Some (?OP, ?CL, ?n) =>
      let p := eval vm_compute in (heapq.heappop OP) in
      match p with
      | Some (?node, ?OP1) =>
          exists node;
          apply (astar_returns_g 6 (grid_successors wall_map)
                   (State_init 0 2) (State_init 5 4) 6 0 OP CL n node OP1);
          [ vm_compute; reflexivity | lia | vm_compute; reflexivity | reflexivity ]
      end
  end.
Defined.

(** ** A*: no position is expanded twice *)

Section AStar_once.

Variable map_width : Z.
Variable successors : State -> list State.

Hypothesis successors_range :
  forall s s', s' ∈ successors s -> (0 <= _x s' < map_width)%Z.

Local Abbreviation hash := (state_hash map_width).

Lemma hash_inj_range s1 s2 :
  (0 <= _x s1 < map_width)%Z -> (0 <= _x s2 < map_width)%Z ->
  hash s1 = hash s2 -> pos s1 = pos s2.
Proof.
  unfold state_hash, pos. intros H1 H2 Heq.
  assert (_y s1 = _y s2) as Hy by nia.
  rewrite Hy in Heq. f_equal; [lia | assumption].
Qed.

Lemma astar_visit_fresh goal (CLOSED : gmap Z State) OPEN n_prime :
  (0 <= _x n_prime < map_width)%Z ->
  astar_fresh map_width OPEN CLOSED ->
  astar_fresh map_width (astar_visit map_width goal CLOSED OPEN n_prime) CLOSED.
Proof.
  intros Hr Hfresh. unfold astar_visit.
  destruct (CLOSED !! hash n_prime) eqn:Hcl; [assumption|].
  destruct (list_index OPEN n_prime) as [i|] eqn:Hidx.
  - destruct (OPEN !! i) as [e|] eqn:He; [|assumption].
    destruct (Qltb (get_g n_prime) (get_g e)); [|assumption].
    intros e' He'. rewrite heapq_perm.heapify_perm in He'.
    apply list_insert_elem_of in He' as [-> | He']; [|now apply Hfresh].
    apply (Hfresh e). eapply list_elem_of_lookup_2. exact He.
  - intros e' He'. rewrite heapq_perm.heappush_perm in He'.
    apply elem_of_cons in He' as [-> | He']; [|now apply Hfresh].
    split; [exact Hr | exact Hcl].
Qed.

Lemma astar_visits_fresh goal (CLOSED : gmap Z State) l : forall OPEN,
  (forall x, x ∈ l -> (0 <= _x x < map_width)%Z) ->
  astar_fresh map_width OPEN CLOSED ->
  astar_fresh map_width (foldl (astar_visit map_width goal CLOSED) OPEN l) CLOSED.
Proof.
  induction l as [|n_prime l IH]; intros OPEN Hl Hfresh; [exact Hfresh|].
  cbn [foldl]. apply IH; [intros x Hx; apply Hl; now right|].
  apply astar_visit_fresh; [apply Hl; now left | assumption].
Qed.

Lemma astar_step_once goal OPEN CLOSED n OPEN' CLOSED' n' :
  NoDup (pos <$> OPEN) /\ astar_fresh map_width OPEN CLOSED /\ size CLOSED = n ->
  astar_step map_width successors goal OPEN CLOSED n = inr (OPEN', CLOSED', n') ->
  NoDup (pos <$> OPEN') /\ astar_fresh map_width OPEN' CLOSED' /\ size CLOSED' = n'.
Proof.
  intros (Hnd & Hfresh & Hsize) Hstep.
  split; [eapply astar_step_nodup; eassumption|].
  apply astar_step_inr in Hstep as (node & OPEN1 & Hpop & _ & -> & -> & ->).
  pose proof (heapq_perm.heappop_perm _ _ _ Hpop) as Hperm.
  destruct (Hfresh node) as [Hnr Hnc]; [rewrite Hperm; now left|].
  split.
  - apply astar_visits_fresh; [intros x Hx; eapply successors_range; exact Hx|].
    intros e He. destruct (Hfresh e) as [Her Hec]; [rewrite Hperm; now right|].
    split; [assumption|]. rewrite lookup_insert_ne; [assumption|].
    intros Hk. apply hash_inj_range in Hk; [|assumption | assumption].
    rewrite Hperm, fmap_cons in Hnd. apply NoDup_cons in Hnd as [Hnot _].
    apply Hnot. rewrite Hk. now apply list_elem_of_fmap_2.
  - rewrite map_size_insert_None by assumption. lia.
Qed.

End AStar_once.

(** On a map whose successors keep their column below the width, as the
    start does, [AStar.search] expands no position twice: after k
    iterations CLOSED holds k keys, and no state of OPEN has its key in
    CLOSED. *)
Theorem astar_expands_once (map_width : Z) (successors : State -> list State)
    (start goal : State) (k : nat) (OPEN : list State)
    (CLOSED : gmap Z State) (n : nat) :
  (0 <= _x start < map_width)%Z ->
  (forall s s', s' ∈ successors s -> (0 <= _x s' < map_width)%Z) ->
  AStar_after map_width successors k start goal = Some (OPEN, CLOSED, n) ->
  size CLOSED = k /\
  forall e, e ∈ OPEN -> CLOSED !! state_hash map_width e = None.
Proof.
  intros Hstart Hrange Hafter.
  pose proof (astar_iter_count _ _ _ _ _ _ _ _ _ _ Hafter) as Hn.
  assert (NoDup (pos <$> heapq.heappush [] start) /\
          astar_fresh map_width (heapq.heappush [] start) ∅ /\
          size (∅ : gmap Z State) = 0) as Hinit.
  { rewrite heappush_nil. split; [apply NoDup_singleton|].
    split; [|apply map_size_empty].
    intros e ->%list_elem_of_singleton. split; [assumption | apply lookup_empty]. }
  pose proof (astar_iter_invariant map_width successors
                (fun O C m => NoDup (pos <$> O) /\ astar_fresh map_width O C /\
                              size C = m)
                goal (astar_step_once map_width successors Hrange goal)
                k _ _ _ _ _ _ Hinit Hafter) as (_ & Hfresh & Hsize).
  split; [lia|]. intros e He. apply (Hfresh e He).
Qed.

Lemma grid_successors_range (m : gridded_map) (s s' : State) :
  s' ∈ grid_successors m s -> (0 <= _x s' < width m)%Z.
Proof.
  unfold grid_successors. intros ([i j] & _ & Hf)%list_elem_of_omap.
  destruct (is_valid_pair m _ _) eqn:Hv; [|discriminate].
  injection Hf as <-. unfold is_valid_pair in Hv.
  rewrite !andb_true_iff in Hv. destruct Hv as [[[[Hx _] Hw] _] _].
  apply Z.leb_le in Hx. apply Z.ltb_lt in Hw. simpl _x. lia.
Qed.

Lemma astar_expands_once_witness :
  exists OPEN CLOSED,
    AStar_after 6 (grid_successors wall_map) 5 (State_init 0 2) (State_init 5 4)
    = Some (OPEN, CLOSED, 5) /\
    size CLOSED = 5.
Proof.
  let v := eval vm_compute in
    (AStar_after 6 (grid_successors wall_map) 5 (State_init 0 2) (State_init 5 4)) in
  match v with
  | Some (?OP, ?CL, ?n) =>
      exists OP, CL;
      assert (AStar_after 6 (grid_successors wall_map) 5 (State_init 0 2)
                (State_init 5 4) = Some (OP, CL, n)) as H
        by (vm_compute; reflexivity);
      split; [exact H|];
      exact (proj1 (astar_expands_once 6 (grid_successors wall_map)
                      (State_init 0 2) (State_init 5 4) 5 OP CL n
                      ltac:(simpl; lia) (grid_successors_range wall_map) H))
  end.
Defined.

(** ** OPEN is a heap throughout both searches *)

Section Open_heap.

Variable map_width : Z.
Variable successors : State -> list State.

Lemma heap_ok_singleton (s : State) : heap_inv.heap_ok (heapq.heappush [] s).
Proof. apply heapq_order.heappush_ok. intros i _ _ c p Hc. discriminate. Qed.

Lemma dijkstra_visits_heap l : forall OPEN CLOSED,
  heap_inv.heap_ok OPEN ->
  heap_inv.heap_ok (foldl (dijkstra_visit map_width) (OPEN, CLOSED) l).1.
Proof.
  induction l as [|n_prime l IH]; intros OPEN CLOSED Hok; [exact Hok|].
  cbn [foldl]. rewrite dijkstra_visit_eq.
  destruct (CLOSED !! state_hash map_width n_prime) as [recorded|].
  - destruct (Qltb (get_g n_prime) recorded); apply IH;
      [apply heapq_order.heapify_ok | assumption].
  - apply IH. now apply heapq_order.heappush_ok.
Qed.

Lemma dijkstra_step_heap goal OPEN CLOSED n OPEN' CLOSED' n' :
  heap_inv.heap_ok OPEN ->
  dijkstra_step map_width successors goal OPEN CLOSED n = inr (OPEN', CLOSED', n') ->
  heap_inv.heap_ok OPEN'.
Proof.
  intros Hok. unfold dijkstra_step.
  destruct (heapq.heappop OPEN) as [[node OPEN1]|] eqn:Hpop; [|discriminate].
  destruct (State_eq node goal).
  { destruct (CLOSED !! state_hash map_width node); discriminate. }
  destruct (heapq_order.heappop_ok _ _ _ Hok Hpop) as [Hok1 _].
  pose proof (dijkstra_visits_heap (successors node) OPEN1 CLOSED Hok1) as H.
  destruct (foldl _ _ _) as [O2 C2]. now intros [= <- <- <-].
Qed.

Lemma astar_visits_heap goal (CLOSED : gmap Z State) l : forall OPEN,
  heap_inv.heap_ok OPEN ->
  heap_inv.heap_ok (foldl (astar_visit map_width goal CLOSED) OPEN l).
Proof.
  induction l as [|n_prime l IH]; intros OPEN Hok; [exact Hok|].
  cbn [foldl]. apply IH. unfold astar_visit.
  destruct (CLOSED !! state_hash map_width n_prime); [assumption|].
  destruct (list_index OPEN n_prime) as [i|].
  - destruct (OPEN !! i) as [e|]; [|assumption].
    destruct (Qltb (get_g n_prime) (get_g e)); [|assumption].
    apply heapq_order.heapify_ok.
  - now apply heapq_order.heappush_ok.
Qed.

Lemma astar_step_heap goal OPEN CLOSED n OPEN' CLOSED' n' :
  heap_inv.heap_ok OPEN ->
  astar_step map_width successors goal OPEN CLOSED n = inr (OPEN', CLOSED', n') ->
  heap_inv.heap_ok OPEN'.
Proof.
  intros Hok (node & OPEN1 & Hpop & _ & _ & -> & _)%astar_step_inr.
  apply astar_visits_heap.
  now destruct (heapq_order.heappop_ok _ _ _ Hok Hpop) as [Hok1 _].
Qed.

Lemma heappop_least OPEN node OPEN1 :
  heap_inv.heap_ok OPEN -> heapq.heappop OPEN = Some (node, OPEN1) ->
  forall e, e ∈ OPEN -> (_cost node <= _cost e)%Q.
Proof.
  intros Hok Hpop e He.
  destruct (heapq_order.heappop_ok _ _ _ Hok Hpop) as [_ Hmin].
  rewrite (heapq_perm.heappop_perm _ _ _ Hpop) in He.
  apply elem_of_cons in He as [-> | He]; [apply Qle_refl | now apply Hmin].
Qed.

End Open_heap.

(** The state that [Dijkstra.search] pops at any iteration has the least
    cost of all states in OPEN at that moment. *)
Theorem dijkstra_pops_least (map_width : Z) (successors : State -> list State)
    (start goal : State) (k : nat) (OPEN : list State) (CLOSED : gmap Z Q)
    (n : nat) (node : State) (OPEN1 : list State) :
  Dijkstra_after map_width successors k start goal = Some (OPEN, CLOSED, n) ->
  heapq.heappop OPEN = Some (node, OPEN1) ->
  forall e, e ∈ OPEN -> (_cost node <= _cost e)%Q.
Proof.
  intros Hafter Hpop. eapply heappop_least; [|exact Hpop].
  eapply (dijkstra_iter_invariant map_width successors
            (fun O _ _ => heap_inv.heap_ok O));
    [|apply heap_ok_singleton | exact Hafter].
  intros OP CL m OP' CL' m'. apply dijkstra_step_heap.
Qed.

Lemma dijkstra_pops_least_witness :
  exists OPEN node,
    (Forall (fun e => (_cost node <= _cost e)%Q) OPEN) /\ 2 <= length OPEN.
Proof.
  let v := eval vm_compute in
    (Dijkstra_after 6 (grid_successors wall_map) 9 (State_init 0 2) (State_init 5 4)) in
  match v with
  | Some (?OP, ?CL, ?n) =>
      let p := eval vm_compute in (heapq.heappop OP) in
      match p with
      | Some (?node, ?OP1) =>
          exists OP, node; split; [|vm_compute; lia];
          apply Forall_forall;
          apply (dijkstra_pops_least 6 (grid_successors wall_map)
                   (State_init 0 2) (State_init 5 4) 9 OP CL n node OP1);
          vm_compute; reflexivity
      end
  end.
Defined.

(** The state that [AStar.search] pops at any iteration has the least cost
    of all states in OPEN at that moment, also after states of OPEN were
    updated in place. *)
Theorem astar_pops_least (map_width : Z) (successors : State -> list State)
    (start goal : State) (k : nat) (OPEN : list State)
    (CLOSED : gmap Z State) (n : nat) (node : State) (OPEN1 : list State) :
  AStar_after map_width successors k start goal = Some (OPEN, CLOSED, n) ->
  heapq.heappop OPEN = Some (node, OPEN1) ->
  forall e, e ∈ OPEN -> (_cost node <= _cost e)%Q.
Proof.
  intros Hafter Hpop. eapply heappop_least; [|exact Hpop].
  eapply (astar_iter_invariant map_width successors
            (fun O _ _ => heap_inv.heap_ok O));
    [|apply heap_ok_singleton | exact Hafter].
  intros OP CL m OP' CL' m'. apply astar_step_heap.
Qed.

Lemma astar_pops_least_witness :
  exists OPEN node,
    (Forall (fun e => (_cost node <= _cost e)%Q) OPEN) /\ 2 <= length OPEN.
Proof.
  let v := eval vm_compute in
    (AStar_after 6 (grid_successors wall_map) 5 (State_init 0 2) (State_init 5 4)) in
  match v with
  | Some (?OP, ?CL, ?n) =>
      let p := eval vm_compute in (heapq.heappop OP) in
      match p with
      | Some (?node, ?OP1) =>
          exists OP, node; split; [|vm_compute; lia];
          apply Forall_forall;
          apply (astar_pops_least 6 (grid_successors wall_map)
                   (State_init 0 2) (State_init 5 4) 5 OP CL n node OP1);
          vm_compute; reflexivity
      end
  end.
Defined.
